(** * fenwick_tree.hpp: a shallow embedding and its properties

    The class [fenwick_tree<T>] of [src/fenwick_tree.hpp] keeps one private
    field, [std::vector<value_type> tree].  The embedding below follows the
    header method by method.

    - [value_type] is a type parameter [T] with the operations the header
      uses on it: [value_type{0}], [+=], binary [-], unary [-] and the [==]
      of [std::vector<T>] (class [Arithmetic]).  Every addition and
      subtraction of the model is the one of [T].  Properties that need
      more than that name what they need: the class [Lawful] says that the
      addition of [T] is associative and commutative with neutral element
      0 and inverse [-].  It holds of the integers modulo [m] ([Zmod m] of
      the Standard Library), hence of every unsigned integer type (modulus
      [2 ^ w]) and of the signed ones where overflow wraps; it does not hold
      of [double] (the binary64 floats of the kernel), whose addition
      rounds.
    - [int], the value type of [examples/example.cpp], is the instance on
      [Z] with the 32-bit two's complement wrap written out.
    - [signed_type] (the vector's [difference_type]) is modelled by [Z].
      The bit operations [&], [|] and unary [-] are [Z.land], [Z.lor] and
      [Z.opp], which are the two's complement operations on integers of
      any width.  [--i] in [sum(i, j)] wraps at the least value of the
      64-bit type.
    - The vector is a [list T]; [tree.at(k)] is the checked access that
      throws [std::out_of_range], [tree[k]] the unchecked one whose
      behaviour outside the vector is undefined.
    - Loops are recursive functions on a fuel argument; a loop that is
      still running when its fuel is spent yields the outcome [OutOfFuel].
      The loops of [construct] and [sum] get [size()] rounds of fuel, which
      is shown to be enough; [update] takes its fuel from the caller, and
      its properties are stated for every amount of fuel. *)

From stdpp Require Import base list.
From Stdlib Require Import ZArith Lia Zmod PrimFloat.

Local Open Scope Z_scope.

(** ** The value type *)

(** The operations of [value_type] that the header uses. *)
Class Arithmetic (T : Type) : Type := {
  vzero : T;               (* value_type{0}, and the literal 0 of sum() *)
  vadd : T → T → T;        (* a += b *)
  vsub : T → T → T;        (* a - b *)
  vneg : T → T;            (* -a *)
  veqb : T → T → bool      (* a == b *)
}.

(** [int]: 32 bits, two's complement.  Signed overflow, which C++ leaves
    undefined, wraps. *)
Definition wrap_int (z : Z) : Z := (z + 2 ^ 31) mod 2 ^ 32 - 2 ^ 31.

#[global] Instance int : Arithmetic Z := {|
  vzero := 0;
  vadd a b := wrap_int (a + b);
  vsub a b := wrap_int (a - b);
  vneg a := wrap_int (- a);
  veqb := Z.eqb
|}.

(** The integers modulo [m]; with [m = 2 ^ w] the unsigned integers of
    [w] bits ([unsigned] is [Zmod (2 ^ 32)]). *)
#[global] Instance modular (m : Z) : Arithmetic (Zmod m) := {|
  vzero := Zmod.zero;
  vadd := Zmod.add;
  vsub := Zmod.sub;
  vneg := Zmod.opp;
  veqb := Zmod.eqb
|}.

(** [double]: IEEE 754 binary64, round to nearest even. *)
#[global] Instance double : Arithmetic float := {|
  vzero := 0%float;
  vadd := PrimFloat.add;
  vsub := PrimFloat.sub;
  vneg := PrimFloat.opp;
  veqb := PrimFloat.eqb
|}.

(** The laws of addition that the value properties below rest on. *)
Class Lawful (T : Type) `{Arithmetic T} : Prop := {
  vadd_assoc (a b c : T) : vadd a (vadd b c) = vadd (vadd a b) c;
  vadd_comm (a b : T) : vadd a b = vadd b a;
  vadd_0_l (a : T) : vadd vzero a = a;
  vadd_neg_r (a : T) : vadd a (vneg a) = vzero;
  vsub_def (a b : T) : vsub a b = vadd a (vneg b);
  veqb_eq (a b : T) : veqb a b = true ↔ a = b
}.

(** ** The index type *)

(** The least and the greatest value of [signed_type], 64 bits wide. *)
Definition signed_min : Z := - 2 ^ 63.
Definition signed_max : Z := 2 ^ 63 - 1.

(** [--i] *)
Definition decrement (i : Z) : Z :=
  if i =? signed_min then signed_max else i - 1.

(** ** Outcomes of a method call *)

(** The [what()] of the exceptions the header throws.  All of them are
    [std::out_of_range]. *)
Inductive what : Type :=
| sum_exceeds_range (i : Z)            (* "sum(0, i) exceeds range." *)
| sum_negative_range (i j : Z)         (* "sum(i, j) has a negative range." *)
| update_negative_range (i j : Z)      (* "update(i, j) has a negative range." *)
| vector_range_check (k : Z).          (* thrown by std::vector::at *)

Inductive exception : Type :=
| out_of_range (w : what).

Inductive outcome (A : Type) : Type :=
| Ok (a : A)              (* normal return *)
| Throw (e : exception)   (* an exception leaves the method *)
| Undefined               (* unchecked access outside the vector *)
| OutOfFuel.              (* the loop was still running when fuel ran out *)

Arguments Ok {A} a.
Arguments Throw {A} e.
Arguments Undefined {A}.
Arguments OutOfFuel {A}.

#[global] Instance outcome_ret : MRet outcome := @Ok.

#[global] Instance outcome_bind : MBind outcome := λ A B f m,
  match m with
  | Ok a => f a
  | Throw e => Throw e
  | Undefined => Undefined
  | OutOfFuel => OutOfFuel
  end.

Section model.

Context {T : Type} `{Arithmetic T}.

(** ** The vector *)

Definition size (tree : list T) : Z := Z.of_nat (length tree).

Definition in_bounds (tree : list T) (k : Z) : bool :=
  (0 <=? k) && (k <? size tree).

(** The value stored in slot [k]. *)
Definition slot (tree : list T) (k : Z) : T :=
  default vzero (tree !! Z.to_nat k).

(** [tree.at(k)] *)
Definition at_ (tree : list T) (k : Z) : outcome T :=
  if in_bounds tree k then Ok (slot tree k)
  else Throw (out_of_range (vector_range_check k)).

(** [tree.at(k) += v] *)
Definition at_add (tree : list T) (k : Z) (v : T) : outcome (list T) :=
  if in_bounds tree k then Ok (<[Z.to_nat k := vadd (slot tree k) v]> tree)
  else Throw (out_of_range (vector_range_check k)).

(** ** construct *)

(** The inner loop of [construct]:
    [for (index = ...; index < size(); index = index | (index + 1))
       tree.at(index) += *it;] *)
Fixpoint construct_walk (fuel : nat) (tree : list T) (v : T) (index : Z)
  : outcome (list T) :=
  if index <? size tree then
    match fuel with
    | O => OutOfFuel
    | S fuel' =>
        tree' ← at_add tree index v;
        construct_walk fuel' tree' v (Z.lor index (index + 1))
    end
  else Ok tree.

(** The outer loop of [construct]: [it] runs over the input, [idx] is
    [std::distance(begin, it)].  The inner loop visits strictly increasing
    slots below [size()], so [size()] iterations are enough fuel
    (lemma [construct_walk_spec]). *)
Fixpoint construct_from (tree : list T) (idx : Z) (rest : list T)
  : outcome (list T) :=
  match rest with
  | [] => Ok tree
  | v :: rest' =>
      tree' ← construct_walk (length tree) tree v idx;
      construct_from tree' (idx + 1) rest'
  end.

(** [tree.assign(std::distance(begin, end), value_type{0})] followed by the
    two loops. *)
Definition construct (s : list T) : outcome (list T) :=
  construct_from (replicate (length s) vzero) 0 s.

(** ** sum *)

(** The loop of [sum(i)]:
    [for (; i >= 0; i = (i & (i + 1)) - 1) result += tree.at(i);] *)
Fixpoint sum_walk (fuel : nat) (tree : list T) (result : T) (i : Z)
  : outcome T :=
  if 0 <=? i then
    match fuel with
    | O => OutOfFuel
    | S fuel' =>
        x ← at_ tree i;
        sum_walk fuel' tree (vadd result x) (Z.land i (i + 1) - 1)
    end
  else Ok result.

(** [value_type sum(signed_type i)].  The loop visits strictly decreasing
    slots starting below [size()], so [size()] iterations are enough fuel
    (lemma [sum_walk_returns]). *)
Definition sum_i (tree : list T) (i : Z) : outcome T :=
  if (i <? 0) || (size tree <=? i) then
    Throw (out_of_range (sum_exceeds_range i))
  else if size tree =? 0 then Ok vzero
  else sum_walk (length tree) tree vzero i.

(** [value_type sum()] *)
Definition sum (tree : list T) : outcome T :=
  if size tree =? 0 then Ok vzero else sum_i tree (size tree - 1).

(** [value_type sum(signed_type i, signed_type j)] *)
Definition sum_i_j (tree : list T) (i j : Z) : outcome T :=
  if j <? i then Throw (out_of_range (sum_negative_range i j))
  else
    upper ← sum_i tree j;
    let i := decrement i in
    if i <? 0 then Ok upper
    else
      lower ← sum_i tree i;
      Ok (vsub upper lower).

(** ** update *)

(** One walk of [update]:
    [for (; j <= size(); j += j & (-j)) tree[j] += x;]
    The access is the unchecked [operator[]].  The walk returns the vector
    as it stands when the walk ends, however it ends. *)
Fixpoint update_walk (fuel : nat) (tree : list T) (x : T) (j : Z)
  : outcome unit * list T :=
  if j <=? size tree then
    match fuel with
    | O => (OutOfFuel, tree)
    | S fuel' =>
        if in_bounds tree j then
          update_walk fuel' (<[Z.to_nat j := vadd (slot tree j) x]> tree) x
            (j + Z.land j (- j))
        else (Undefined, tree)
    end
  else (Ok (), tree).

(** [bool update(signed_type i, signed_type j, const value_type& value)].
    The result pairs the outcome with the vector after the call. *)
Definition update (fuel : nat) (tree : list T) (i j : Z) (value : T)
  : outcome bool * list T :=
  if j <? i then (Throw (out_of_range (update_negative_range i j)), tree)
  else
    let j := j + 1 in
    if (i <? 0) || (j <? 0) || (size tree <=? i) || (size tree <=? j) then
      (Ok false, tree)
    else
      match update_walk fuel tree (vneg value) j with
      | (Ok _, tree1) =>
          match update_walk fuel tree1 value i with
          | (Ok _, tree2) => (Ok true, tree2)
          | (Throw e, tree2) => (Throw e, tree2)
          | (Undefined, tree2) => (Undefined, tree2)
          | (OutOfFuel, tree2) => (OutOfFuel, tree2)
          end
      | (Throw e, tree1) => (Throw e, tree1)
      | (Undefined, tree1) => (Undefined, tree1)
      | (OutOfFuel, tree1) => (OutOfFuel, tree1)
      end.

(** [void clear()] *)
Definition clear (tree : list T) : list T := [].

(** ** The remaining members of the class *)

(** [fenwick_tree() = default]: the vector starts empty. *)
Definition fenwick_tree_default : list T := [].

(** [value_type operator[](signed_type i) const { return tree.at(i); }] *)
Definition operator_index (tree : list T) (i : Z) : outcome T := at_ tree i.

(** [operator==] of [std::vector]: equal sizes and equal elements. *)
Fixpoint vector_eq (a b : list T) : bool :=
  match a, b with
  | [], [] => true
  | x :: a', y :: b' => veqb x y && vector_eq a' b'
  | _, _ => false
  end.

(** [bool operator==(const fenwick_tree& other) const] *)
Definition operator_eq (tree other : list T) : bool := vector_eq tree other.

(** [bool operator!=(const fenwick_tree& other) const] *)
Definition operator_ne (tree other : list T) : bool := negb (vector_eq tree other).

(** ** The logical array *)

(** The sum of a sequence of values, taken in [value_type]. *)
Definition total (s : list T) : T := foldr vadd vzero s.

(** [s[i] + ... + s[j]], the sum of the logical elements at the indices
    [i..j], both ends included. *)
Definition range_total (s : list T) (i j : Z) : T :=
  total (take (Z.to_nat (j - i + 1)) (drop (Z.to_nat i) s)).

(** [s[0] + ... + s[i]] *)
Definition prefix_total (s : list T) (i : Z) : T := range_total s 0 i.

(** The sum of the first [m] elements; [prefix_total s i = first_total s (i + 1)]. *)
Definition first_total (s : list T) (m : Z) : T := total (take (Z.to_nat m) s).

(** The buffer [tree] encodes the logical array [s]: same length, and every
    slot holds the sum of the logical elements it covers, which are those
    at the indices [k & (k + 1) .. k]. *)
Definition encodes (tree s : list T) : Prop :=
  length tree = length s ∧
  ∀ k, 0 ≤ k < size tree → slot tree k = range_total s (Z.land k (k + 1)) k.

(** The sum of the slots on the walk of [sum(i)] from slot [i], as a plain
    function of the buffer (no bounds checks, [0] once [fuel] is spent). *)
Fixpoint walk_value (fuel : nat) (tree : list T) (i : Z) : T :=
  if 0 <=? i then
    match fuel with
    | O => vzero
    | S fuel' => vadd (slot tree i) (walk_value fuel' tree (Z.land i (i + 1) - 1))
    end
  else vzero.

(** The logical array a buffer stands for: element [k] is the difference of
    the walks from [k] and from [k - 1]. *)
Definition decode (tree : list T) : list T :=
  (λ k, vsub (walk_value (length tree) tree k)
             (walk_value (length tree) tree (k - 1)))
    <$> seqZ 0 (size tree).

End model.

(** Slot [k] of the buffer covers the logical indices [k & (k + 1) .. k]. *)
Definition covers (k p : Z) : bool := (Z.land k (k + 1) <=? p) && (p <=? k).

(** Slot [k] lies on the walk of [update] that starts at [j]: the walk
    steps by [j += j & (-j)], and reaches [k] exactly when
    [k - (k & -k) < j <= k]. *)
Definition on_update_walk (k j : Z) : bool :=
  (k - Z.land k (- k) <? j) && (j <=? k).

(** The input of [examples/example.cpp]: [std::vector<int> array {1, 6, 2, 4, 3, 5}]. *)
Definition array : list Z := [1; 6; 2; 4; 3; 5].

(** Conversion to [unsigned], 32 bits wide. *)
Definition to_unsigned (z : Z) : Zmod (2 ^ 32) := Zmod.of_Z (2 ^ 32) z.

(** An input of [fenwick_tree<unsigned>] whose sum wraps:
    [{4294967295, 1}]. *)
Definition wrapping : list (Zmod (2 ^ 32)) := to_unsigned <$> [4294967295; 1].

(** Two inputs of [fenwick_tree<double>] whose sums round:
    [{1e16, 1.0, -1e16}] and [{1e16, 1e16, -1e16, 1.0, 3.0, 2.0}]. *)
Definition cancelling : list float := [1e16; 1; -1e16]%float.
Definition rounding : list float := [1e16; 1e16; -1e16; 1; 3; 2]%float.

(** The example array and its buffer, as [unsigned] values. *)
Definition unsigned_array : list (Zmod (2 ^ 32)) := to_unsigned <$> array.
Definition unsigned_buffer : list (Zmod (2 ^ 32)) :=
  to_unsigned <$> [1; 7; 2; 13; 3; 8].

(** * Bit arithmetic of the three walks *)

Section bit_steps.

(** Compare two integers bit by bit, splitting on bit 0 and the rest. *)
Ltac by_bits :=
  apply Z.bits_inj'; intros n Hn;
  rewrite ?Z.land_spec, ?Z.lor_spec;
  destruct (Z.eq_dec n 0) as [->|Hne];
  [ rewrite ?Z.testbit_even_0, ?Z.testbit_odd_0
  | replace n with (Z.succ (n - 1)) by lia;
    rewrite ?Z.testbit_even_succ, ?Z.testbit_odd_succ by lia;
    rewrite ?Z.land_spec, ?Z.lor_spec ].

Lemma land_succ_even a : Z.land (2 * a) (2 * a + 1) = 2 * a.
Proof. by_bits; [done | by rewrite andb_diag]. Qed.

Lemma land_succ_odd a :
  Z.land (2 * a + 1) (2 * a + 1 + 1) = 2 * Z.land a (a + 1).
Proof. replace (2 * a + 1 + 1) with (2 * (a + 1)) by lia. by_bits; done. Qed.

Lemma lor_succ_even a : Z.lor (2 * a) (2 * a + 1) = 2 * a + 1.
Proof. by_bits; [done | by rewrite orb_diag]. Qed.

Lemma lor_succ_odd a :
  Z.lor (2 * a + 1) (2 * a + 1 + 1) = 2 * Z.lor a (a + 1) + 1.
Proof. replace (2 * a + 1 + 1) with (2 * (a + 1)) by lia. by_bits; done. Qed.

Lemma lowbit_even a : Z.land (2 * a) (- (2 * a)) = 2 * Z.land a (- a).
Proof. replace (- (2 * a)) with (2 * - a) by lia. by_bits; done. Qed.

Lemma lowbit_odd a : Z.land (2 * a + 1) (- (2 * a + 1)) = 1.
Proof.
  replace (- (2 * a + 1)) with (2 * Z.lnot a + 1) by (unfold Z.lnot; lia).
  change 1 with (2 * 0 + 1) at 3. by_bits; [done |].
  rewrite Z.lnot_spec, Z.testbit_0_l by lia. apply andb_negb_r.
Qed.

(** Induction on the binary digits of a non-negative index. *)
Lemma binary_ind (P : Z → Prop) :
  P 0 →
  (∀ a, 0 < a → P a → P (2 * a)) →
  (∀ a, 0 ≤ a → P a → P (2 * a + 1)) →
  ∀ k, 0 ≤ k → P k.
Proof.
  intros H0 Heven Hodd k Hk. generalize Hk. pattern k.
  apply Z_lt_induction; [|exact Hk]. clear k Hk. intros k IH Hk.
  destruct (Z.Even_or_Odd k) as [[a ->]|[a ->]].
  - destruct (Z.eq_dec a 0) as [->|]; [done|].
    apply Heven; [lia|]. apply IH; lia.
  - apply Hodd; [lia|]. apply IH; lia.
Qed.

(** [i & (i + 1)] clears the trailing ones of [i]. *)
Lemma land_succ_bounds k : 0 ≤ k → 0 ≤ Z.land k (k + 1) ≤ k.
Proof.
  revert k. apply binary_ind.
  - rewrite Z.land_0_l. lia.
  - intros a Ha IH. rewrite land_succ_even. lia.
  - intros a Ha IH. rewrite land_succ_odd. lia.
Qed.

(** [i | (i + 1)] sets the lowest zero bit of [i]: the result is odd and
    larger than [i]. *)
Lemma lor_succ_gt p : 0 ≤ p → p < Z.lor p (p + 1).
Proof.
  revert p. apply binary_ind.
  - rewrite Z.lor_0_l. lia.
  - intros a Ha IH. rewrite lor_succ_even. lia.
  - intros a Ha IH. rewrite lor_succ_odd. lia.
Qed.

Lemma lor_succ_odd_result p : 0 ≤ p → ∃ b, Z.lor p (p + 1) = 2 * b + 1.
Proof.
  intros Hp. destruct (Z.Even_or_Odd p) as [[a ->]|[a ->]].
  - exists a. apply lor_succ_even.
  - exists (Z.lor a (a + 1)). apply lor_succ_odd.
Qed.

(** [j & (-j)] is the lowest set bit of [j]: at least 1 from 1 on. *)
Lemma lowbit_pos j : 0 < j → 0 < Z.land j (- j) ≤ j.
Proof.
  intros Hj. assert (0 ≤ j) as Hj0 by lia. revert j Hj0 Hj.
  apply (binary_ind (λ j, 0 < j → 0 < Z.land j (- j) ≤ j)).
  - lia.
  - intros a Ha IH _. rewrite lowbit_even. lia.
  - intros a Ha IH _. rewrite lowbit_odd. lia.
Qed.

(** Slot [k] covers the logical indices [k & (k + 1) .. k].  The walk of
    [construct] from [p] steps to [p | (p + 1)]: a slot above [p] covers [p]
    exactly when it covers the next stop of the walk. *)
Lemma cover_step k :
  0 ≤ k → ∀ p, 0 ≤ p < k →
  Z.land k (k + 1) ≤ p ↔
  Z.lor p (p + 1) ≤ k ∧ Z.land k (k + 1) ≤ Z.lor p (p + 1).
Proof.
  revert k. apply (binary_ind (λ k, ∀ p, 0 ≤ p < k →
    Z.land k (k + 1) ≤ p ↔
    Z.lor p (p + 1) ≤ k ∧ Z.land k (k + 1) ≤ Z.lor p (p + 1))).
  - intros p Hp. lia.
  - intros a Ha _ p Hp. rewrite land_succ_even.
    destruct (lor_succ_odd_result p) as [b ->]; lia.
  - intros a Ha IH p Hp. rewrite land_succ_odd.
    destruct (Z.Even_or_Odd p) as [[q ->]|[q ->]].
    + rewrite lor_succ_even. lia.
    + rewrite lor_succ_odd. specialize (IH q). lia.
Qed.


Lemma lowbit_nonneg j : 0 ≤ j → 0 ≤ Z.land j (- j).
Proof.
  intros Hj. destruct (Z.eq_dec j 0) as [->|]; [done|].
  pose proof (lowbit_pos j). lia.
Qed.

(** Below a power of two, one step of the walk does not jump over it. *)
Lemma lowbit_step_pow2 j :
  0 ≤ j → ∀ m, 0 ≤ m → 1 ≤ j < 2 ^ m → j + Z.land j (- j) ≤ 2 ^ m.
Proof.
  revert j. apply (binary_ind (λ j, ∀ m, 0 ≤ m → 1 ≤ j < 2 ^ m →
    j + Z.land j (- j) ≤ 2 ^ m)).
  - intros m Hm Hj. lia.
  - intros a Ha IH m Hm Hj. rewrite lowbit_even.
    destruct (Z.eq_dec m 0) as [->|Hm0]; [simpl in Hj; lia|].
    replace m with (Z.succ (m - 1)) in * by lia.
    rewrite Z.pow_succ_r in * by lia.
    specialize (IH (m - 1)). lia.
  - intros a Ha _ m Hm Hj. rewrite lowbit_odd.
    destruct (Z.eq_dec m 0) as [->|Hm0]; [simpl in Hj; lia|].
    replace m with (Z.succ (m - 1)) in * by lia.
    rewrite Z.pow_succ_r in * by lia. lia.
Qed.

(** A slot above [j] lies on the walk from [j] exactly when it lies on the
    walk from the next stop [j + (j & -j)]. *)
Lemma update_cover_step k :
  0 ≤ k → ∀ j, 1 ≤ j < k →
  k - Z.land k (- k) < j ↔
  j + Z.land j (- j) ≤ k ∧ k - Z.land k (- k) < j + Z.land j (- j).
Proof.
  revert k. apply (binary_ind (λ k, ∀ j, 1 ≤ j < k →
    k - Z.land k (- k) < j ↔
    j + Z.land j (- j) ≤ k ∧ k - Z.land k (- k) < j + Z.land j (- j))).
  - intros j Hj. lia.
  - intros a Ha IH j Hj. rewrite lowbit_even.
    destruct (Z.Even_or_Odd j) as [[b ->]|[b ->]].
    + rewrite lowbit_even. specialize (IH b). lia.
    + rewrite lowbit_odd. lia.
  - intros a Ha _ j Hj. rewrite lowbit_odd.
    destruct (Z.Even_or_Odd j) as [[b ->]|[b ->]].
    + rewrite lowbit_even. lia.
    + rewrite lowbit_odd. lia.
Qed.

(** The same facts about the two walks, as equations between the tests
    [covers] and [on_update_walk]. *)
Lemma covers_self k : 0 ≤ k → covers k k = true.
Proof.
  intros Hk. pose proof (land_succ_bounds k Hk). unfold covers.
  apply andb_true_iff. lia.
Qed.

Lemma covers_above k p : k < p → covers k p = false.
Proof. intros Hkp. unfold covers. apply andb_false_iff. lia. Qed.

Lemma covers_step k p :
  0 ≤ p → 0 ≤ k → k ≠ p → covers k (Z.lor p (p + 1)) = covers k p.
Proof.
  intros Hp Hk Hne. pose proof (lor_succ_gt p Hp).
  destruct (Z_lt_le_dec p k) as [Hlt|Hge].
  - pose proof (cover_step k Hk p (conj Hp Hlt)) as Hc.
    unfold covers. apply eq_true_iff_eq.
    rewrite !andb_true_iff, !Z.leb_le. lia.
  - by rewrite !covers_above by lia.
Qed.

Lemma on_update_walk_self j : 1 ≤ j → on_update_walk j j = true.
Proof.
  intros Hj. pose proof (lowbit_pos j). unfold on_update_walk.
  apply andb_true_iff. lia.
Qed.

Lemma on_update_walk_above k j : k < j → on_update_walk k j = false.
Proof. intros Hkj. unfold on_update_walk. apply andb_false_iff. lia. Qed.

Lemma on_update_walk_step k j :
  1 ≤ j → 0 ≤ k → k ≠ j →
  on_update_walk k (j + Z.land j (- j)) = on_update_walk k j.
Proof.
  intros Hj Hk Hne. pose proof (lowbit_pos j).
  destruct (Z_lt_le_dec j k) as [Hlt|Hge].
  - pose proof (update_cover_step k Hk j (conj Hj Hlt)) as Hc.
    unfold on_update_walk. apply eq_true_iff_eq.
    rewrite !andb_true_iff, !Z.leb_le, !Z.ltb_lt. lia.
  - by rewrite !on_update_walk_above by lia.
Qed.

End bit_steps.

(** * The laws of the value type *)

(** The integers modulo [m] satisfy the laws. *)
#[global] Instance modular_lawful (m : Z) : Lawful (Zmod m).
Proof.
  split; simpl.
  - apply Zmod.add_assoc.
  - apply Zmod.add_comm.
  - apply Zmod.add_0_l.
  - apply Zmod.add_opp_same_r.
  - intros a b. symmetry. apply Zmod.add_opp_r.
  - apply Zmod.eqb_eq.
Qed.

Section laws.

Context {T : Type} `{Lawful T}.

Lemma vadd_0_r (a : T) : vadd a vzero = a.
Proof. by rewrite vadd_comm, vadd_0_l. Qed.

Lemma vadd_neg_l (a : T) : vadd (vneg a) a = vzero.
Proof. by rewrite vadd_comm, vadd_neg_r. Qed.

Lemma vadd_swap (a b c : T) : vadd (vadd a b) c = vadd (vadd a c) b.
Proof. by rewrite <-!vadd_assoc, (vadd_comm b c). Qed.

Lemma vadd_cancel_l (a b c : T) : vadd a b = vadd a c → b = c.
Proof.
  intros Heq.
  rewrite <-(vadd_0_l b), <-(vadd_0_l c), <-(vadd_neg_l a), <-!vadd_assoc.
  by rewrite Heq.
Qed.

Lemma vadd_neg_cancel (a v : T) : vadd (vadd a (vneg v)) v = a.
Proof. by rewrite <-vadd_assoc, vadd_neg_l, vadd_0_r. Qed.

Lemma vadd_cancel_neg (a v : T) : vadd (vadd a v) (vneg v) = a.
Proof. by rewrite <-vadd_assoc, vadd_neg_r, vadd_0_r. Qed.

Lemma vneg_neg (a : T) : vneg (vneg a) = a.
Proof.
  apply (vadd_cancel_l (vneg a)). by rewrite vadd_neg_r, vadd_neg_l.
Qed.


Lemma vadd_vsub (a b : T) : vadd a (vsub b a) = b.
Proof.
  by rewrite vsub_def, vadd_assoc, (vadd_comm a b), vadd_cancel_neg.
Qed.

End laws.

(** * Sums over the logical array *)

Section logical_sums.

Context {T : Type} `{Lawful T}.

Implicit Types s l k : list T.

Lemma total_app l k : total (l ++ k) = vadd (total l) (total k).
Proof.
  induction l as [|x l IH]; simpl; [by rewrite vadd_0_l|].
  by rewrite IH, vadd_assoc.
Qed.

Lemma total_replicate_0 n : total (replicate n (vzero : T)) = vzero.
Proof. induction n as [|n IH]; simpl; [done|]. by rewrite IH, vadd_0_l. Qed.

Lemma first_total_0 s : first_total s 0 = vzero.
Proof. done. Qed.

Lemma first_total_neg s m : m ≤ 0 → first_total s m = vzero.
Proof. intros Hm. unfold first_total. by replace (Z.to_nat m) with 0%nat by lia. Qed.

Lemma prefix_total_first s i : prefix_total s i = first_total s (i + 1).
Proof.
  unfold prefix_total, range_total, first_total.
  by replace (i - 0 + 1) with (i + 1) by lia.
Qed.

(** The sum of the first [j + 1] elements is the sum of the first [i]
    followed by the sum of the elements [i..j]. *)
Lemma first_total_split s i j :
  0 ≤ i ≤ j + 1 →
  first_total s (j + 1) = vadd (first_total s i) (range_total s i j).
Proof.
  intros Hij. unfold range_total, first_total.
  replace (Z.to_nat (j + 1)) with (Z.to_nat i + Z.to_nat (j - i + 1))%nat by lia.
  by rewrite <-take_take_drop, total_app.
Qed.

(** Adding [v] to one element moves exactly the sums that reach it. *)
Lemma total_middle l1 l2 (x v : T) (n : nat) :
  total (take n (l1 ++ vadd x v :: l2)) =
  if (length l1 <? n)%nat then vadd (total (take n (l1 ++ x :: l2))) v
  else total (take n (l1 ++ x :: l2)).
Proof.
  rewrite !take_app, !total_app.
  destruct (Nat.ltb_spec (length l1) n).
  - replace (n - length l1)%nat with (S (n - length l1 - 1)) by lia.
    simpl. by rewrite (vadd_swap x v), !vadd_assoc.
  - by replace (n - length l1)%nat with 0%nat by lia.
Qed.

Lemma range_total_middle l1 l2 (x v : T) a b :
  0 ≤ a →
  range_total (l1 ++ vadd x v :: l2) a b =
  if (a <=? Z.of_nat (length l1)) && (Z.of_nat (length l1) <=? b)
  then vadd (range_total (l1 ++ x :: l2) a b) v
  else range_total (l1 ++ x :: l2) a b.
Proof.
  intros Ha. unfold range_total.
  destruct (Z.leb_spec a (Z.of_nat (length l1))) as [Hle|Hgt]; simpl.
  - rewrite !drop_app_le by lia. rewrite total_middle, length_drop.
    destruct (Z.leb_spec (Z.of_nat (length l1)) b);
      destruct (Nat.ltb_spec (length l1 - Z.to_nat a) (Z.to_nat (b - a + 1)));
      try done; lia.
  - rewrite !drop_app_ge by lia.
    by replace (Z.to_nat a - length l1)%nat
      with (S (Z.to_nat a - length l1 - 1)) by lia.
Qed.

End logical_sums.

(** * The buffer *)

Section buffer.

Context {T : Type} `{Arithmetic T}.

Implicit Types tree : list T.

Lemma size_insert tree n x : size (<[n := x]> tree) = size tree.
Proof. unfold size. by rewrite length_insert. Qed.

Lemma in_bounds_spec tree k : in_bounds tree k = true ↔ 0 ≤ k < size tree.
Proof. unfold in_bounds. rewrite andb_true_iff. lia. Qed.

Lemma in_bounds_true tree k : 0 ≤ k < size tree → in_bounds tree k = true.
Proof. apply in_bounds_spec. Qed.

Lemma slot_insert_eq tree k x :
  0 ≤ k < size tree → slot (<[Z.to_nat k := x]> tree) k = x.
Proof.
  intros Hk. unfold slot, size in *.
  by rewrite list_lookup_insert_eq by lia.
Qed.

Lemma slot_insert_ne tree j k x :
  0 ≤ j → 0 ≤ k → j ≠ k → slot (<[Z.to_nat j := x]> tree) k = slot tree k.
Proof.
  intros Hj Hk Hne. unfold slot.
  by rewrite list_lookup_insert_ne by lia.
Qed.

Lemma slot_replicate_0 n k : slot (replicate n (vzero : T)) k = vzero.
Proof.
  unfold slot. destruct (replicate n vzero !! Z.to_nat k) as [x|] eqn:E; [|done].
  by apply lookup_replicate in E as [-> _].
Qed.

Lemma slot_lookup tree (n : nat) x :
  tree !! n = Some x → slot tree (Z.of_nat n) = x.
Proof. intros Hx. unfold slot. by rewrite Nat2Z.id, Hx. Qed.

(** Two buffers of one length with the same slots are the same buffer. *)
Lemma slots_ext (t1 t2 : list T) :
  length t1 = length t2 →
  (∀ k, 0 ≤ k < size t1 → slot t1 k = slot t2 k) →
  t1 = t2.
Proof.
  intros Hlen Hslot. apply (list_eq_same_length _ _ (length t1)); [done..|].
  intros n x y Hn Hx Hy.
  rewrite <-(slot_lookup _ _ _ Hx), <-(slot_lookup _ _ _ Hy).
  apply Hslot. unfold size. lia.
Qed.

(** The inner loop of [construct] returns within [size() - index]
    iterations, and has added [v], once, to exactly the slots that cover
    [index]. *)
Lemma construct_walk_spec fuel : ∀ tree v index,
  0 ≤ index →
  size tree - index ≤ Z.of_nat fuel →
  ∃ tree',
    construct_walk fuel tree v index = Ok tree' ∧
    length tree' = length tree ∧
    ∀ k, 0 ≤ k < size tree →
      slot tree' k =
        if covers k index then vadd (slot tree k) v else slot tree k.
Proof.
  induction fuel as [|fuel IH]; intros tree v index Hidx Hfuel; simpl.
  - destruct (Z.ltb_spec index (size tree)); [lia|].
    exists tree. split_and!; [done..|]. intros k Hk.
    by rewrite covers_above by lia.
  - destruct (Z.ltb_spec index (size tree)) as [Hlt|Hge].
    + unfold at_add. rewrite in_bounds_true by lia. simpl.
      pose proof (lor_succ_gt index Hidx) as Hup.
      destruct (IH (<[Z.to_nat index := vadd (slot tree index) v]> tree) v
                   (Z.lor index (index + 1))) as (tree' & -> & Hlen & Hslot).
      { lia. }
      { rewrite size_insert. lia. }
      exists tree'. split_and!; [done| by rewrite Hlen, length_insert |].
      intros k Hk. rewrite Hslot by (rewrite size_insert; lia).
      destruct (Z.eq_dec k index) as [->|Hne].
      * rewrite slot_insert_eq by lia.
        by rewrite covers_above, covers_self by lia.
      * rewrite slot_insert_ne by lia. by rewrite covers_step by lia.
    + exists tree. split_and!; [done..|]. intros k Hk.
      by rewrite covers_above by lia.
Qed.

(** The loop of [sum(i)] returns, whatever the buffer holds. *)
Lemma sum_walk_returns tree fuel : ∀ result i,
  -1 ≤ i < size tree →
  i + 1 ≤ Z.of_nat fuel →
  ∃ v, sum_walk fuel tree result i = Ok v.
Proof.
  induction fuel as [|fuel IH]; intros result i Hi Hfuel; simpl.
  - destruct (Z.leb_spec 0 i); [lia|]. by eexists.
  - destruct (Z.leb_spec 0 i) as [Hi0|Hi0]; [|by eexists].
    unfold at_. rewrite in_bounds_true by lia. simpl.
    pose proof (land_succ_bounds i Hi0) as Hdown.
    apply IH; lia.
Qed.

Lemma sum_i_returns tree i : 0 ≤ i < size tree → ∃ v, sum_i tree i = Ok v.
Proof.
  intros Hi. unfold sum_i.
  destruct (Z.ltb_spec i 0); [lia|].
  destruct (Z.leb_spec (size tree) i); [lia|]. simpl.
  destruct (Z.eqb_spec (size tree) 0); [lia|].
  apply sum_walk_returns; unfold size in *; lia.
Qed.

Lemma sum_i_throws tree i :
  ¬ (0 ≤ i < size tree) →
  sum_i tree i = Throw (out_of_range (sum_exceeds_range i)).
Proof.
  intros Hi. unfold sum_i.
  destruct (Z.ltb_spec i 0); [done|].
  destruct (Z.leb_spec (size tree) i); [done|lia].
Qed.

(** The walk of [sum(i)] reads no slot above [i]. *)
Lemma sum_walk_agree fuel : ∀ (t1 t2 : list T) result i,
  length t1 = length t2 →
  (∀ p, 0 ≤ p ≤ i → slot t1 p = slot t2 p) →
  sum_walk fuel t1 result i = sum_walk fuel t2 result i.
Proof.
  induction fuel as [|fuel IH]; intros t1 t2 result i Hlen Hsame; simpl;
    destruct (Z.leb_spec 0 i); try done.
  pose proof (land_succ_bounds i ltac:(done)).
  unfold at_, in_bounds, size. rewrite Hlen, (Hsame i) by lia.
  destruct ((0 <=? i) && (i <? Z.of_nat (length t2))); [|done]. simpl.
  apply IH; [done|]. intros p Hp. apply Hsame. lia.
Qed.

Lemma sum_i_agree (t1 t2 : list T) i :
  length t1 = length t2 →
  (∀ p, 0 ≤ p ≤ i → slot t1 p = slot t2 p) →
  sum_i t1 i = sum_i t2 i.
Proof.
  intros Hlen Hsame. unfold sum_i, size. rewrite Hlen.
  destruct ((i <? 0) || (Z.of_nat (length t2) <=? i)); [done|].
  destruct (Z.of_nat (length t2) =? 0); [done|].
  by apply sum_walk_agree.
Qed.

Lemma walk_value_fuel fuel : ∀ fuel' tree i,
  i + 1 ≤ Z.of_nat fuel → i + 1 ≤ Z.of_nat fuel' →
  walk_value fuel tree i = walk_value fuel' tree i.
Proof.
  induction fuel as [|fuel IH]; intros fuel' tree i H1 H2; simpl.
  - destruct (Z.leb_spec 0 i); [lia|]. destruct fuel'; simpl;
      by rewrite (proj2 (Z.leb_gt 0 i)).
  - destruct fuel' as [|fuel']; simpl; destruct (Z.leb_spec 0 i); try done.
    + lia.
    + pose proof (land_succ_bounds i ltac:(done)).
      f_equal. apply IH; lia.
Qed.

Lemma walk_value_step tree i :
  0 ≤ i < size tree →
  walk_value (length tree) tree i =
  vadd (slot tree i) (walk_value (length tree) tree (Z.land i (i + 1) - 1)).
Proof.
  intros Hi. unfold size in Hi.
  destruct (length tree) as [|n] eqn:E; [lia|].
  pose proof (land_succ_bounds i (proj1 Hi)).
  rewrite (walk_value_fuel (S n) n tree (Z.land i (i + 1) - 1)) by lia.
  simpl. by rewrite (proj2 (Z.leb_le 0 i)) by lia.
Qed.

Lemma walk_value_neg fuel tree i : i < 0 → walk_value fuel tree i = vzero.
Proof. intros Hi. destruct fuel; simpl; by rewrite (proj2 (Z.leb_gt 0 i)). Qed.

(** A logical array is encoded by one buffer only. *)
Lemma encodes_buffer_unique (t1 t2 s : list T) :
  encodes t1 s → encodes t2 s → t1 = t2.
Proof.
  intros [Hl1 H1] [Hl2 H2]. apply slots_ext; [lia|].
  intros k Hk. rewrite H1, H2; [done|unfold size in *; lia|done].
Qed.

End buffer.

(** * The walks of construct and sum *)

Section walks.

Context {T : Type} `{Lawful T}.

Implicit Types tree s : list T.

(** One round of the outer loop turns a buffer for [l1 ++ x :: l2] into a
    buffer for [l1 ++ (x + v) :: l2]. *)
Lemma construct_walk_encodes tree (l1 l2 : list T) x v :
  encodes tree (l1 ++ x :: l2) →
  ∃ tree',
    construct_walk (length tree) tree v (Z.of_nat (length l1)) = Ok tree' ∧
    encodes tree' (l1 ++ vadd x v :: l2).
Proof.
  intros [Hlen Henc].
  destruct (construct_walk_spec (length tree) tree v (Z.of_nat (length l1)))
    as (tree' & Hrun & Hlen' & Hslot); [lia | unfold size; lia |].
  exists tree'. split; [done|]. split.
  { rewrite Hlen', Hlen, !length_app. done. }
  intros k Hk. assert (size tree' = size tree) as Hsz by (unfold size; lia).
  rewrite Hsz in Hk. rewrite Hslot, Henc by done.
  pose proof (land_succ_bounds k (proj1 Hk)) as Hdown.
  by rewrite range_total_middle by lia.
Qed.

(** The outer loop, started after the elements [done_] have been added
    to a buffer in which the remaining elements still count as zero. *)
Lemma construct_from_encodes (rest : list T) : ∀ tree (done_ : list T),
  encodes tree (done_ ++ replicate (length rest) vzero) →
  ∃ tree',
    construct_from tree (Z.of_nat (length done_)) rest = Ok tree' ∧
    encodes tree' (done_ ++ rest).
Proof.
  induction rest as [|v rest IH]; intros tree done_ Henc; simpl.
  - by exists tree.
  - simpl in Henc.
    destruct (construct_walk_encodes tree done_ _ vzero v Henc)
      as (tree1 & -> & Henc1). simpl.
    rewrite vadd_0_l in Henc1.
    destruct (IH tree1 (done_ ++ [v])) as (tree' & Hrun & Henc').
    { by rewrite <-(assoc_L (++)). }
    exists tree'. rewrite length_app, Nat2Z.inj_add in Hrun.
    change (Z.of_nat (length [v])) with 1 in Hrun. rewrite Hrun.
    by rewrite <-(assoc_L (++)) in Henc'.
Qed.

Lemma encodes_zero n : encodes (replicate n (vzero : T)) (replicate n vzero).
Proof.
  split; [done|]. intros k Hk. rewrite slot_replicate_0.
  unfold range_total.
  by rewrite drop_replicate, take_replicate, total_replicate_0.
Qed.

(** [construct] returns a buffer that encodes its input. *)
Lemma construct_encodes s : ∃ tree, construct s = Ok tree ∧ encodes tree s.
Proof.
  apply (construct_from_encodes s (replicate (length s) vzero) []).
  apply encodes_zero.
Qed.

(** The loop of [sum(i)] returns within [i + 1] iterations, and adds the
    sum of the logical elements [0..i] to [result]. *)
Lemma sum_walk_spec tree s fuel : ∀ result i,
  encodes tree s →
  -1 ≤ i < size tree →
  i + 1 ≤ Z.of_nat fuel →
  sum_walk fuel tree result i = Ok (vadd result (first_total s (i + 1))).
Proof.
  induction fuel as [|fuel IH]; intros result i Henc Hi Hfuel; simpl.
  - destruct (Z.leb_spec 0 i); [lia|].
    by rewrite first_total_neg, vadd_0_r by lia.
  - destruct (Z.leb_spec 0 i) as [Hi0|Hi0].
    + unfold at_. rewrite in_bounds_true by lia. simpl.
      pose proof (land_succ_bounds i Hi0) as Hdown.
      rewrite IH by (done || lia). f_equal.
      destruct Henc as [_ Henc]. rewrite Henc by lia.
      replace (Z.land i (i + 1) - 1 + 1) with (Z.land i (i + 1)) by lia.
      rewrite (first_total_split s (Z.land i (i + 1)) i) by lia.
      by rewrite vadd_swap, vadd_assoc.
    + by rewrite first_total_neg, vadd_0_r by lia.
Qed.

Lemma sum_i_encodes tree s i :
  encodes tree s → 0 ≤ i < size tree →
  sum_i tree i = Ok (prefix_total s i).
Proof.
  intros Henc Hi. unfold sum_i.
  destruct (Z.ltb_spec i 0); [lia|].
  destruct (Z.leb_spec (size tree) i); [lia|]. simpl.
  destruct (Z.eqb_spec (size tree) 0); [lia|].
  rewrite (sum_walk_spec tree s) by (done || unfold size in *; lia).
  by rewrite prefix_total_first, vadd_0_l.
Qed.

End walks.

(** * Every buffer encodes a logical array *)

Section decoding.

Context {T : Type} `{Lawful T}.

Implicit Types tree s : list T.

Lemma sum_walk_value tree fuel : ∀ result i,
  -1 ≤ i < size tree →
  i + 1 ≤ Z.of_nat fuel →
  sum_walk fuel tree result i = Ok (vadd result (walk_value fuel tree i)).
Proof.
  induction fuel as [|fuel IH]; intros result i Hi Hfuel; simpl.
  - destruct (Z.leb_spec 0 i); [lia|]. by rewrite vadd_0_r.
  - destruct (Z.leb_spec 0 i) as [Hi0|Hi0]; [|by rewrite vadd_0_r].
    unfold at_. rewrite in_bounds_true by lia. simpl.
    pose proof (land_succ_bounds i Hi0) as Hdown.
    rewrite IH by lia. by rewrite vadd_assoc.
Qed.

Lemma sum_i_value tree i :
  0 ≤ i < size tree →
  sum_i tree i = Ok (walk_value (length tree) tree i).
Proof.
  intros Hi. unfold sum_i.
  destruct (Z.ltb_spec i 0); [lia|].
  destruct (Z.leb_spec (size tree) i); [lia|]. simpl.
  destruct (Z.eqb_spec (size tree) 0); [lia|].
  rewrite sum_walk_value by (unfold size in *; lia). by rewrite vadd_0_l.
Qed.

Lemma first_total_decode tree (m : nat) :
  (m ≤ length tree)%nat →
  total (take m (decode tree)) =
  walk_value (length tree) tree (Z.of_nat m - 1).
Proof.
  induction m as [|m IH]; intros Hm.
  - by rewrite walk_value_neg by lia.
  - rewrite (take_S_r _ _ (vsub (walk_value (length tree) tree (Z.of_nat m))
                             (walk_value (length tree) tree (Z.of_nat m - 1)))).
    + rewrite total_app, IH by lia. simpl. rewrite vadd_0_r, vadd_vsub.
      by replace (Z.of_nat (S m) - 1) with (Z.of_nat m) by lia.
    + unfold decode. rewrite list_lookup_fmap, lookup_seqZ_lt
        by (unfold size; lia).
      simpl. by rewrite Z.add_0_l.
Qed.

Lemma encodes_decode tree : encodes tree (decode tree).
Proof.
  split.
  { unfold decode, size. by rewrite length_fmap, length_seqZ, Nat2Z.id. }
  intros k Hk. pose proof (land_succ_bounds k (proj1 Hk)) as Hdown.
  apply (vadd_cancel_l (first_total (decode tree) (Z.land k (k + 1)))).
  rewrite <-first_total_split by lia. unfold first_total.
  unfold size in Hk. rewrite !first_total_decode by lia.
  rewrite !Z2Nat.id by lia.
  replace (k + 1 - 1) with k by lia.
  rewrite (walk_value_step tree k) by (unfold size; lia).
  apply vadd_comm.
Qed.

(** Two sequences of one length with the same partial sums are the same
    sequence. *)
Lemma partial_sums_ext (s1 s2 : list T) :
  length s1 = length s2 →
  (∀ m, (m ≤ length s1)%nat → total (take m s1) = total (take m s2)) →
  s1 = s2.
Proof.
  intros Hlen Hsum. apply (list_eq_same_length _ _ (length s1)); [done..|].
  intros n x y Hn Hx Hy.
  pose proof (Hsum n ltac:(lia)) as Hlow.
  pose proof (Hsum (S n) ltac:(lia)) as Hup.
  rewrite (take_S_r _ _ _ Hx), (take_S_r _ _ _ Hy), !total_app in Hup.
  simpl in Hup. rewrite !vadd_0_r, Hlow in Hup.
  by apply vadd_cancel_l in Hup.
Qed.

(** A buffer encodes one logical array only, the one [decode] reads. *)
Lemma encodes_unique tree s : encodes tree s → s = decode tree.
Proof.
  intros Henc. pose proof (encodes_decode tree) as Hdec.
  apply partial_sums_ext.
  { by rewrite <-(proj1 Henc), <-(proj1 Hdec). }
  intros m Hm. rewrite <-(proj1 Henc) in Hm.
  rewrite first_total_decode by done.
  destruct m as [|m]; [by rewrite walk_value_neg by lia|].
  assert (-1 ≤ Z.of_nat m < size tree) as Hin by (unfold size; lia).
  assert (Z.of_nat m + 1 ≤ Z.of_nat (length tree)) as Hfuel by lia.
  pose proof (sum_walk_spec tree s (length tree) vzero _ Henc Hin Hfuel) as Hs.
  rewrite (sum_walk_value tree (length tree) vzero _ Hin Hfuel) in Hs.
  injection Hs as Hs. rewrite !vadd_0_l in Hs. unfold first_total in Hs.
  replace (Z.to_nat (Z.of_nat m + 1)) with (S m) in Hs by lia.
  by replace (Z.of_nat (S m) - 1) with (Z.of_nat m) by lia.
Qed.

Lemma construct_decode s tree : construct s = Ok tree → decode tree = s.
Proof.
  intros Hrun. destruct (construct_encodes s) as (tree' & Hrun' & Henc).
  rewrite Hrun in Hrun'. injection Hrun' as <-.
  symmetry. by apply encodes_unique.
Qed.

End decoding.

(** * The walks of update *)

Section update_walks.

Context {T : Type} {AT : Arithmetic T}.

Implicit Types tree : list T.

Lemma update_walk_length fuel : ∀ tree x j,
  length (snd (update_walk fuel tree x j)) = length tree.
Proof.
  induction fuel as [|fuel IH]; intros tree x j; simpl;
    destruct (j <=? size tree); try done.
  destruct (in_bounds tree j); [|done].
  by rewrite IH, length_insert.
Qed.

(** A walk that has ended keeps its result when given more fuel. *)
Lemma update_walk_mono fuel : ∀ fuel' tree x j,
  (fuel ≤ fuel')%nat →
  fst (update_walk fuel tree x j) ≠ OutOfFuel →
  update_walk fuel' tree x j = update_walk fuel tree x j.
Proof.
  induction fuel as [|fuel IH]; intros fuel' tree x j Hle Hend.
  - simpl in *. destruct (j <=? size tree) eqn:E; [done|].
    destruct fuel'; simpl; by rewrite E.
  - destruct fuel' as [|fuel']; [lia|]. simpl in *.
    destruct (j <=? size tree); [|done].
    destruct (in_bounds tree j); [|done].
    apply IH; [lia|done].
Qed.

(** From slot 0 the step [j += j & (-j)] adds nothing: the walk never
    leaves slot 0. *)
Lemma update_walk_zero fuel : ∀ tree x,
  0 < size tree → fst (update_walk fuel tree x 0) = OutOfFuel.
Proof.
  induction fuel as [|fuel IH]; intros tree x Hsz; simpl;
    destruct (Z.leb_spec 0 (size tree)); try lia; [done|].
  rewrite in_bounds_true by lia.
  change (0 + Z.land 0 (- 0)) with 0. apply IH. by rewrite size_insert.
Qed.

(** From slot 1 on the walk climbs by at least one slot per round and
    ends within [size() + 1 - j] rounds. *)
Lemma update_walk_returns fuel : ∀ tree x j,
  1 ≤ j → size tree + 1 - j ≤ Z.of_nat fuel →
  fst (update_walk fuel tree x j) ≠ OutOfFuel.
Proof.
  induction fuel as [|fuel IH]; intros tree x j Hj Hfuel; simpl;
    destruct (Z.leb_spec j (size tree)); try lia; try done.
  destruct (in_bounds tree j); [|done].
  pose proof (lowbit_pos j ltac:(lia)).
  apply IH; [lia|]. rewrite size_insert. lia.
Qed.

(** The three ways [update] ends before its walks. *)
Lemma update_negative fuel tree i j value :
  j < i →
  update fuel tree i j value =
    (Throw (out_of_range (update_negative_range i j)), tree).
Proof. intros Hji. unfold update. by rewrite (proj2 (Z.ltb_lt j i) Hji). Qed.

Lemma update_rejected fuel tree i j value :
  i ≤ j → i < 0 ∨ size tree ≤ j + 1 →
  update fuel tree i j value = (Ok false, tree).
Proof.
  intros Hij Hout. unfold update.
  rewrite (proj2 (Z.ltb_ge j i) Hij).
  destruct (Z.ltb_spec i 0); [done|].
  destruct (Z.ltb_spec (j + 1) 0); [done|].
  destruct (Z.leb_spec (size tree) i); [done|].
  destruct (Z.leb_spec (size tree) (j + 1)); [done|lia].
Qed.

Lemma update_walks fuel tree i j value :
  0 ≤ i ≤ j → j + 1 < size tree →
  update fuel tree i j value =
    match update_walk fuel tree (vneg value) (j + 1) with
    | (Ok _, tree1) =>
        match update_walk fuel tree1 value i with
        | (Ok _, tree2) => (Ok true, tree2)
        | (Throw e, tree2) => (Throw e, tree2)
        | (Undefined, tree2) => (Undefined, tree2)
        | (OutOfFuel, tree2) => (OutOfFuel, tree2)
        end
    | (Throw e, tree1) => (Throw e, tree1)
    | (Undefined, tree1) => (Undefined, tree1)
    | (OutOfFuel, tree1) => (OutOfFuel, tree1)
    end.
Proof.
  intros Hij Hj. unfold update.
  rewrite (proj2 (Z.ltb_ge j i)) by lia.
  destruct (Z.ltb_spec i 0); [lia|].
  destruct (Z.ltb_spec (j + 1) 0); [lia|].
  destruct (Z.leb_spec (size tree) i); [lia|].
  destruct (Z.leb_spec (size tree) (j + 1)); [lia|]. done.
Qed.

(** An update whose lower bound is 0 passes the checks and then never
    returns: its second walk stays in slot 0. *)
Lemma update_from_zero fuel tree j value b :
  0 ≤ j → j + 1 < size tree →
  fst (update fuel tree 0 j value) ≠ Ok b.
Proof.
  intros Hj Hsz. rewrite update_walks by lia.
  pose proof (update_walk_length fuel tree (vneg value) (j + 1)) as Hlen.
  destruct (update_walk fuel tree (vneg value) (j + 1)) as [[[]| | |] tree1];
    try done.
  simpl in Hlen.
  assert (0 < size tree1) as Hsz1 by (unfold size in *; lia).
  pose proof (update_walk_zero fuel tree1 value Hsz1) as Hz.
  by destruct (update_walk fuel tree1 value 0) as [[[]| | |] tree2].
Qed.

(** With a lower bound of at least 1, [update] returns once its fuel
    covers [size()] rounds per walk. *)
Lemma update_from_one fuel tree i j value :
  1 ≤ i ≤ j → size tree ≤ Z.of_nat fuel →
  fst (update fuel tree i j value) ≠ OutOfFuel.
Proof.
  intros Hij Hfuel.
  destruct (Z_lt_le_dec (j + 1) (size tree)) as [Hj|Hj].
  - rewrite update_walks by lia.
    pose proof (update_walk_length fuel tree (vneg value) (j + 1)) as Hlen.
    pose proof (update_walk_returns fuel tree (vneg value) (j + 1)) as H1.
    destruct (update_walk fuel tree (vneg value) (j + 1)) as [[[]| | |] tree1];
      simpl in *; try done.
    + pose proof (update_walk_returns fuel tree1 value i) as H2.
      destruct (update_walk fuel tree1 value i) as [[[]| | |] tree2];
        simpl in *; try done.
      unfold size in *. rewrite Hlen in H2. destruct H2; [lia..|done].
    + destruct H1; [lia..|done].
  - by rewrite update_rejected by lia.
Qed.

(** A call that has ended keeps its result when given more fuel. *)
Lemma update_mono fuel fuel' tree i j value :
  (fuel ≤ fuel')%nat →
  fst (update fuel tree i j value) ≠ OutOfFuel →
  update fuel' tree i j value = update fuel tree i j value.
Proof.
  intros Hle. unfold update.
  destruct (j <? i); [done|].
  destruct ((i <? 0) || (j + 1 <? 0) || (size tree <=? i)
            || (size tree <=? j + 1)); [done|].
  pose proof (update_walk_mono fuel fuel' tree (vneg value) (j + 1) Hle) as H1.
  destruct (update_walk fuel tree (vneg value) (j + 1)) as [[[]| | |] tree1];
    simpl in *; intros Hend; rewrite H1 by done; try done.
  pose proof (update_walk_mono fuel fuel' tree1 value i Hle) as H2.
  destruct (update_walk fuel tree1 value i) as [[[]| | |] tree2];
    simpl in *; rewrite H2 by done; done.
Qed.

(** How a walk ends depends on the size of the buffer, not on what the
    buffer holds or on the value added. *)
Lemma update_walk_outcome fuel : ∀ (t t' : list T) x x' j,
  length t = length t' →
  fst (update_walk fuel t x j) = fst (update_walk fuel t' x' j).
Proof.
  induction fuel as [|fuel IH]; intros t t' x x' j Hlen; simpl;
    unfold in_bounds, size; rewrite <-Hlen;
    destruct (j <=? Z.of_nat (length t)); try done.
  destruct ((0 <=? j) && (j <? Z.of_nat (length t))); [|done].
  apply IH. by rewrite !length_insert.
Qed.

(** A walk from [j] leaves the slots below [j] alone. *)
Lemma update_walk_below fuel : ∀ tree x j k,
  0 ≤ k < j →
  slot (snd (update_walk fuel tree x j)) k = slot tree k.
Proof.
  induction fuel as [|fuel IH]; intros tree x j k Hk; simpl;
    destruct (j <=? size tree); try done.
  destruct (in_bounds tree j); [|done].
  pose proof (lowbit_nonneg j ltac:(lia)).
  rewrite IH by lia. apply slot_insert_ne; lia.
Qed.

(** A walk from [j >= 1] that ends normally has added [x], once, to exactly
    the slots on the walk. *)
Lemma update_walk_effect fuel : ∀ tree x j tree',
  1 ≤ j →
  update_walk fuel tree x j = (Ok (), tree') →
  ∀ k, 0 ≤ k < size tree →
    slot tree' k =
      if on_update_walk k j then vadd (slot tree k) x else slot tree k.
Proof.
  induction fuel as [|fuel IH]; intros tree x j tree' Hj Hrun k Hk;
    simpl in Hrun; destruct (Z.leb_spec j (size tree)) as [Hle|Hgt];
    try done.
  - injection Hrun as <-. by rewrite on_update_walk_above by lia.
  - destruct (in_bounds tree j) eqn:Hin; [|done].
    apply in_bounds_spec in Hin.
    pose proof (lowbit_pos j ltac:(lia)) as Hlow.
    assert (1 ≤ j + Z.land j (- j)) as Hj' by lia.
    rewrite (IH _ _ _ _ Hj' Hrun) by (rewrite size_insert; lia).
    destruct (Z.eq_dec k j) as [->|Hne].
    + rewrite slot_insert_eq by lia.
      by rewrite on_update_walk_above, on_update_walk_self by lia.
    + rewrite slot_insert_ne by lia. by rewrite on_update_walk_step by lia.
  - injection Hrun as <-. by rewrite on_update_walk_above by lia.
Qed.

(** In a buffer whose size is a power of two, every walk from [j >= 1]
    reaches the slot [size()], one past the end. *)
Lemma update_walk_pow2 fuel : ∀ tree x j m,
  0 ≤ m → size tree = 2 ^ m → 1 ≤ j ≤ 2 ^ m →
  fst (update_walk fuel tree x j) ≠ Ok ().
Proof.
  induction fuel as [|fuel IH]; intros tree x j m Hm Hsz Hj; simpl;
    destruct (Z.leb_spec j (size tree)); try lia; try done.
  destruct (in_bounds tree j) eqn:Hin; [|done].
  apply in_bounds_spec in Hin.
  pose proof (lowbit_pos j ltac:(lia)).
  pose proof (lowbit_step_pow2 j ltac:(lia) m Hm ltac:(lia)).
  apply (IH _ _ _ m); [done| by rewrite size_insert |lia].
Qed.

(** What a call of [update] that returns true has done. *)
Lemma update_true_inv fuel tree i j value tree' :
  update fuel tree i j value = (Ok true, tree') ↔
  (1 ≤ i ≤ j ∧ j + 1 < size tree) ∧
  ∃ tree1,
    update_walk fuel tree (vneg value) (j + 1) = (Ok (), tree1) ∧
    update_walk fuel tree1 value i = (Ok (), tree').
Proof.
  split.
  - intros Hrun.
    destruct (Z_lt_le_dec j i) as [Hji|Hij].
    { by rewrite update_negative in Hrun by done. }
    destruct (Z_lt_le_dec i 0) as [Hi|Hi].
    { by rewrite update_rejected in Hrun by lia. }
    destruct (Z_lt_le_dec (j + 1) (size tree)) as [Hj|Hj];
      [|by rewrite update_rejected in Hrun by lia].
    destruct (Z.eq_dec i 0) as [->|Hi0].
    { exfalso. eapply (update_from_zero fuel tree j value true); [lia..|].
      by rewrite Hrun. }
    split; [lia|]. rewrite update_walks in Hrun by lia.
    destruct (update_walk fuel tree (vneg value) (j + 1))
      as [[[]| | |] tree1]; try done.
    exists tree1. split; [done|].
    destruct (update_walk fuel tree1 value i) as [[[]| | |] tree2]; try done.
    by injection Hrun as <-.
  - intros [Hij (tree1 & H1 & H2)].
    rewrite update_walks by lia. by rewrite H1, H2.
Qed.

Lemma update_length fuel tree i j value :
  length (snd (update fuel tree i j value)) = length tree.
Proof.
  unfold update. destruct (j <? i); [done|].
  destruct ((i <? 0) || (j + 1 <? 0) || (size tree <=? i)
            || (size tree <=? j + 1)); [done|].
  pose proof (update_walk_length fuel tree (vneg value) (j + 1)) as H1.
  destruct (update_walk fuel tree (vneg value) (j + 1)) as [[[]| | |] tree1];
    simpl in *; try done.
  pose proof (update_walk_length fuel tree1 value i) as H2.
  destruct (update_walk fuel tree1 value i) as [[[]| | |] tree2];
    simpl in *; lia.
Qed.

End update_walks.
(** * What a successful update does keep *)

Section update_frame.

Context {T : Type} {AT : Arithmetic T} {LT : Lawful T}.

Implicit Types tree : list T.

(** The walk of [sum(i)] reads no slot above [i]. *)
Lemma walk_value_agree fuel : ∀ tree tree' i,
  (∀ p, 0 ≤ p ≤ i → slot tree p = slot tree' p) →
  walk_value fuel tree i = walk_value fuel tree' i.
Proof.
  induction fuel as [|fuel IH]; intros tree tree' i Hsame; simpl;
    destruct (Z.leb_spec 0 i); try done.
  pose proof (land_succ_bounds i ltac:(done)).
  rewrite (Hsame i) by lia. f_equal. apply IH. intros p Hp. apply Hsame. lia.
Qed.

(** When [update(i, j, value)] returns true, [sum(k)] is as before for
    every [k < i], and [sum(i)] has grown by [value]. *)
Lemma update_sums_up_to_lower_bound fuel tree i j value tree' :
  update fuel tree i j value = (Ok true, tree') →
  size tree' = size tree ∧
  (∀ k, 0 ≤ k < i → sum_i tree' k = sum_i tree k) ∧
  ∃ v, sum_i tree i = Ok v ∧ sum_i tree' i = Ok (vadd v value).
Proof.
  intros Hrun.
  pose proof (update_length fuel tree i j value) as Hlen.
  rewrite Hrun in Hlen. simpl in Hlen.
  apply update_true_inv in Hrun as [Hij (tree1 & H1 & H2)].
  pose proof (update_walk_length fuel tree (vneg value) (j + 1)) as Hlen1.
  rewrite H1 in Hlen1. simpl in Hlen1.
  assert (size tree' = size tree) as Hsz by (unfold size; lia).
  assert (size tree1 = size tree) as Hsz1 by (unfold size; lia).
  assert (1 ≤ i) as Hi by lia. assert (1 ≤ j + 1) as Hj by lia.
  assert (∀ k, 0 ≤ k < i → slot tree' k = slot tree k) as Hlow.
  { intros k Hk.
    rewrite (update_walk_effect _ _ _ _ _ Hi H2) by lia.
    rewrite (update_walk_effect _ _ _ _ _ Hj H1) by lia.
    by rewrite !on_update_walk_above by lia. }
  split; [done|]. split.
  - intros k Hk. apply sum_i_agree; [done|].
    intros p Hp. apply Hlow. lia.
  - exists (walk_value (length tree) tree i).
    rewrite !sum_i_value by lia. split; [done|]. f_equal.
    rewrite (walk_value_step tree' i), (walk_value_step tree i) by lia.
    rewrite Hlen.
    rewrite (update_walk_effect _ _ _ _ _ Hi H2) by lia.
    rewrite (update_walk_effect _ _ _ _ _ Hj H1) by lia.
    rewrite on_update_walk_self, on_update_walk_above by lia.
    pose proof (land_succ_bounds i ltac:(lia)).
    rewrite (walk_value_agree _ tree' tree).
    + apply vadd_swap.
    + intros p Hp. apply Hlow. lia.
Qed.

End update_frame.

(** * Reading the buffer *)

Section reading.

Context {T : Type} {AT : Arithmetic T} {LT : Lawful T}.

Implicit Types tree s : list T.

Lemma vector_eq_spec (a : list T) : ∀ b, vector_eq a b = true ↔ a = b.
Proof.
  induction a as [|x a IH]; intros [|y b]; simpl; try done.
  rewrite andb_true_iff, IH, veqb_eq. split.
  - by intros [-> ->].
  - intros [= -> ->]. done.
Qed.

Lemma vneg_0 : vneg (vzero : T) = vzero.
Proof. by rewrite <-(vadd_0_l (vneg vzero)), vadd_neg_r. Qed.

Lemma vsub_0_r (a : T) : vsub a vzero = a.
Proof. by rewrite vsub_def, vneg_0, vadd_0_r. Qed.

Lemma vsub_chain (a b c : T) : vadd (vsub b a) (vsub c b) = vsub c a.
Proof.
  rewrite !vsub_def, (vadd_comm (vadd b (vneg a))), vadd_assoc.
  by rewrite vadd_neg_cancel.
Qed.

Lemma decrement_above i : signed_min < i → decrement i = i - 1.
Proof.
  intros Hi. unfold decrement. by rewrite (proj2 (Z.eqb_neq i signed_min)) by lia.
Qed.

Lemma sum_i_j_value tree i j :
  signed_min < i ≤ j → 0 ≤ j < size tree →
  sum_i_j tree i j =
    Ok (vsub (walk_value (length tree) tree j)
             (walk_value (length tree) tree (i - 1))).
Proof.
  intros Hij Hj. unfold sum_i_j.
  rewrite (proj2 (Z.ltb_ge j i)) by lia.
  rewrite (sum_i_value tree j) by lia. simpl.
  rewrite decrement_above by lia.
  destruct (Z.ltb_spec (i - 1) 0).
  - by rewrite (walk_value_neg _ _ (i - 1)), vsub_0_r by lia.
  - by rewrite (sum_i_value tree (i - 1)) by lia.
Qed.

End reading.

(** * Properties of the methods *)

(** ** construct and sum *)

(** C1, as the header has it.  Let the addition of [value_type] be lawful
    (as it is for every unsigned integer type).  For every sequence [s] and
    every index
    [0 <= i < length s], [construct] returns a buffer of the same length
    that satisfies the prefix-sum invariant, and [sum(i)] on it returns
    [s[0] + ... + s[i]], the sum taken in [value_type]. *)
Theorem construct_sum_i {T : Type} `{Lawful T} (s : list T) (i : Z) :
  0 ≤ i < Z.of_nat (length s) →
  ∃ tree,
    construct s = Ok tree ∧
    size tree = Z.of_nat (length s) ∧
    encodes tree s ∧
    sum_i tree i = Ok (prefix_total s i).
Proof.
  intros Hi. destruct (construct_encodes s) as (tree & Hrun & Henc).
  assert (size tree = Z.of_nat (length s)) as Hsz
    by (unfold size; by rewrite (proj1 Henc)).
  exists tree. split_and!; [done..|].
  apply sum_i_encodes; [done|lia].
Qed.

Lemma construct_sum_i_witness :
  Lawful (Zmod (2 ^ 32)) ∧
  0 ≤ 1 < Z.of_nat (length wrapping) ∧
  ∃ tree,
    construct wrapping = Ok tree ∧
    size tree = Z.of_nat (length wrapping) ∧
    encodes tree wrapping ∧
    sum_i tree 1 = Ok (prefix_total wrapping 1).
Proof.
  assert (0 ≤ 1 < Z.of_nat (length wrapping)) as Hi by (simpl; lia).
  exact (conj (modular_lawful (2 ^ 32))
           (conj Hi (construct_sum_i wrapping 1 Hi))).
Defined.

(** On [fenwick_tree<unsigned>] the sums wrap: for [{4294967295, 1}] slot 1
    and [sum()] are 0, and so is the sum of the two elements in
    [unsigned]. *)
Lemma construct_wraps_unsigned :
  construct wrapping = Ok (to_unsigned <$> [4294967295; 0]) ∧
  sum (to_unsigned <$> [4294967295; 0]) = Ok (to_unsigned 0) ∧
  prefix_total wrapping 1 = to_unsigned 0.
Proof. split_and!; reflexivity. Qed.

(** On [fenwick_tree<double>] the sums round: for [{1e16, 1.0, -1e16}]
    slot 1 is [1e16] and [sum()] is 0; [{1e16, 1.0}] and [{1e16, 0.0}]
    build the same buffer.  The addition of [double] is not lawful. *)
Lemma construct_rounds_double :
  construct cancelling = Ok [1e16; 1e16; -1e16]%float ∧
  sum [1e16; 1e16; -1e16]%float = Ok 0%float ∧
  construct [1e16; 1]%float = construct [1e16; 0]%float ∧
  ¬ Lawful float.
Proof.
  split_and!; [reflexivity..|].
  intros Hlaw. pose proof (vadd_assoc 1e16 (-1e16) 1)%float as Hassoc.
  vm_compute in Hassoc. discriminate Hassoc.
Qed.

(** C1, as the claim has it, fails for a floating-point value type.  On
    [fenwick_tree<double>] built from [{1e16, 1e16, -1e16, 1.0, 3.0, 2.0}],
    whose elements add up to 10000000000000006 (exactly, and also when
    added in [double] from the left or from the right), [sum(5)] returns
    10000000000000004: it adds slot 5, which is [3.0 + 2.0], to slot 3,
    which is 10000000000000000 after rounding. *)
Lemma sum_i_rounds_double :
  ∃ tree,
    construct rounding = Ok tree ∧
    0 ≤ 5 < Z.of_nat (length rounding) ∧
    sum_i tree 5 = Ok 10000000000000004%float ∧
    prefix_total rounding 5 = 10000000000000006%float ∧
    foldl vadd vzero rounding = 10000000000000006%float ∧
    sum_i tree 5 ≠ Ok (prefix_total rounding 5).
Proof.
  exists [1e16; 2e16; -1e16; 1e16; 3; 5]%float.
  split_and!; try reflexivity; try (simpl; lia).
  vm_compute. discriminate.
Qed.




(** C9.  [sum(i)] throws [std::out_of_range] exactly when [i] lies outside
    [0, size()), and returns a value otherwise; so [sum(-1)] and
    [sum(size())] throw, and every [sum(i)] throws on an empty buffer.  The
    overload [sum()] always returns a value, which is 0 on an empty
    buffer. *)
Theorem sum_i_range_check {T : Type} `{Arithmetic T} (tree : list T) (i : Z) :
  (sum_i tree i = Throw (out_of_range (sum_exceeds_range i))
     ↔ ¬ (0 ≤ i < size tree)) ∧
  (0 ≤ i < size tree → ∃ v, sum_i tree i = Ok v) ∧
  sum_i tree (-1) = Throw (out_of_range (sum_exceeds_range (-1))) ∧
  sum_i tree (size tree) = Throw (out_of_range (sum_exceeds_range (size tree))) ∧
  (size tree = 0 → sum_i tree i = Throw (out_of_range (sum_exceeds_range i))) ∧
  (∃ v, sum tree = Ok v) ∧
  (size tree = 0 → sum tree = Ok vzero).
Proof.
  split_and!.
  - split; [|apply sum_i_throws].
    intros Hthrow Hi. destruct (sum_i_returns tree i Hi) as [v Hv].
    by rewrite Hv in Hthrow.
  - apply sum_i_returns.
  - apply sum_i_throws. lia.
  - apply sum_i_throws. lia.
  - intros Hsz. apply sum_i_throws. lia.
  - unfold sum. destruct (Z.eqb_spec (size tree) 0); [by eexists|].
    apply sum_i_returns. unfold size in *. lia.
  - intros Hsz. unfold sum. by rewrite Hsz.
Qed.

(** ** update: the checks *)

(** C7, as the header has it.  When [i < 0], or [j + 1 >= size()], or
    [i > j], [update(i, j, value)] leaves the buffer as it was; it returns
    false when [i <= j], and throws [std::out_of_range] when [i > j]. *)
Theorem update_rejects {T : Type} `{Arithmetic T}
    (fuel : nat) (tree : list T) (i j : Z) (value : T) :
  i < 0 ∨ size tree ≤ j + 1 ∨ j < i →
  update fuel tree i j value =
    (if j <? i then Throw (out_of_range (update_negative_range i j))
     else Ok false, tree).
Proof.
  intros Hout. destruct (Z.ltb_spec j i).
  - by apply update_negative.
  - apply update_rejected; lia.
Qed.

Lemma update_rejects_witness :
  (-1 < 0 ∨ size [1; 7; 2] ≤ 1 + 1 ∨ 1 < -1) ∧
  update 0 [1; 7; 2] (-1) 1 5 =
    (if 1 <? -1 then Throw (out_of_range (update_negative_range (-1) 1))
     else Ok false, [1; 7; 2]).
Proof.
  assert (-1 < 0 ∨ size [1; 7; 2] ≤ 1 + 1 ∨ 1 < -1) as Hout by (left; lia).
  exact (conj Hout (update_rejects 0 [1; 7; 2] (-1) 1 5 Hout)).
Defined.

(** C7, as the claim has it, fails for [i > j]: [update(2, 1, 5)] on the
    buffer of [1, 6, 2] does not return false, it throws. *)
Lemma update_inverted_range_not_false :
  (2 < 0 ∨ size [1; 7; 2] ≤ 1 + 1 ∨ 1 < 2) ∧
  construct [1; 6; 2] = Ok [1; 7; 2] ∧
  ∀ fuel,
    update fuel [1; 7; 2] 2 1 5 =
      (Throw (out_of_range (update_negative_range 2 1)), [1; 7; 2]) ∧
    update fuel [1; 7; 2] 2 1 5 ≠ (Ok false, [1; 7; 2]).
Proof.
  split_and!; [right; right; lia | reflexivity |].
  intros fuel. rewrite update_negative by lia. done.
Qed.

(** C8.  On a buffer of size [n >= 1], [update(i, n - 1, value)] returns
    false for every [0 <= i <= n - 1] and changes nothing; and whenever
    [update(i', j', value)] returns true, [j' <= n - 2]. *)
Theorem update_last_slot_rejected {T : Type} `{Arithmetic T}
    (fuel : nat) (tree : list T) (i : Z) (value : T) :
  1 ≤ size tree →
  0 ≤ i ≤ size tree - 1 →
  update fuel tree i (size tree - 1) value = (Ok false, tree) ∧
  ∀ fuel' i' j' value',
    fst (update fuel' tree i' j' value') = Ok true → j' ≤ size tree - 2.
Proof.
  intros Hsz Hi. split.
  - apply update_rejected; lia.
  - intros fuel' i' j' value' Htrue.
    destruct (Z_lt_le_dec j' i') as [Hji|Hij].
    { by rewrite update_negative in Htrue by done. }
    destruct (Z_lt_le_dec (j' + 1) (size tree)); [lia|].
    by rewrite update_rejected in Htrue by lia.
Qed.

Lemma update_last_slot_rejected_witness :
  1 ≤ size [1; 7; 2] ∧
  0 ≤ 1 ≤ size [1; 7; 2] - 1 ∧
  update 4 [1; 7; 2] 1 (size [1; 7; 2] - 1) 5 = (Ok false, [1; 7; 2]) ∧
  ∀ fuel' i' j' value',
    fst (update fuel' [1; 7; 2] i' j' value') = Ok true →
    j' ≤ size [1; 7; 2] - 2.
Proof.
  assert (1 ≤ size [1; 7; 2]) as H1 by (change (size [1; 7; 2]) with 3; lia).
  assert (0 ≤ 1 ≤ size [1; 7; 2] - 1) as H2
    by (change (size [1; 7; 2]) with 3; lia).
  exact (conj H1 (conj H2 (update_last_slot_rejected 4 [1; 7; 2] 1 5 H1 H2))).
Defined.

(** C10.  When [i > j], [sum(i, j)] and [update(i, j, value)] both throw
    [std::out_of_range], the exception [sum(i)] throws for an index outside
    the buffer, and [update] leaves the buffer as it was.  An [update]
    whose range is in order but outside the window throws nothing and
    returns false. *)
Theorem inverted_range_throws {T : Type} `{Arithmetic T}
    (fuel : nat) (tree : list T) (i j : Z) (value : T) :
  j < i →
  sum_i_j tree i j = Throw (out_of_range (sum_negative_range i j)) ∧
  update fuel tree i j value =
    (Throw (out_of_range (update_negative_range i j)), tree) ∧
  (∀ k, ¬ (0 ≤ k < size tree) →
     sum_i tree k = Throw (out_of_range (sum_exceeds_range k))) ∧
  (∀ i' j', i' ≤ j' → i' < 0 ∨ size tree ≤ j' + 1 →
     update fuel tree i' j' value = (Ok false, tree)).
Proof.
  intros Hji. split_and!.
  - unfold sum_i_j. by rewrite (proj2 (Z.ltb_lt j i) Hji).
  - by apply update_negative.
  - apply sum_i_throws.
  - intros i' j'. apply update_rejected.
Qed.

Lemma inverted_range_throws_witness :
  3 < 4 ∧
  sum_i_j [1; 7; 2; 13; 3; 8] 4 3 =
    Throw (out_of_range (sum_negative_range 4 3)) ∧
  update 6 [1; 7; 2; 13; 3; 8] 4 3 1 =
    (Throw (out_of_range (update_negative_range 4 3)), [1; 7; 2; 13; 3; 8]) ∧
  (∀ k, ¬ (0 ≤ k < size [1; 7; 2; 13; 3; 8]) →
     sum_i [1; 7; 2; 13; 3; 8] k =
       Throw (out_of_range (sum_exceeds_range k))) ∧
  (∀ i' j', i' ≤ j' → i' < 0 ∨ size [1; 7; 2; 13; 3; 8] ≤ j' + 1 →
     update 6 [1; 7; 2; 13; 3; 8] i' j' 1 = (Ok false, [1; 7; 2; 13; 3; 8])).
Proof.
  assert (3 < 4) as Hji by lia.
  exact (conj Hji (inverted_range_throws 6 [1; 7; 2; 13; 3; 8] 4 3 1 Hji)).
Defined.

(** ** update: the walks *)

Section update_on_examples.

Local Ltac from_fuel n :=
  let fuel := fresh "fuel" in
  let Hfuel := fresh "Hfuel" in
  intros fuel Hfuel;
  rewrite (update_mono n fuel) by (done || (vm_compute; done));
  reflexivity.

(** C2 does not hold of the header.  On the buffer of the example array
    [update(2, 2, 5)] returns true and moves [sum(3, 3)], a range outside
    [2, 2], from 4 to -6; [update(1, 3, 1)] returns true and leaves
    [sum(1, 3)] at 12 instead of raising it by 3. *)
Theorem update_disturbs_range_sums :
  ∃ tree tree2 tree3,
    construct array = Ok tree ∧
    (∀ fuel, (2 ≤ fuel)%nat → update fuel tree 2 2 5 = (Ok true, tree2)) ∧
    sum_i_j tree 3 3 = Ok 4 ∧
    sum_i_j tree2 3 3 = Ok (-6) ∧
    (∀ fuel, (3 ≤ fuel)%nat → update fuel tree 1 3 1 = (Ok true, tree3)) ∧
    sum_i_j tree 1 3 = Ok 12 ∧
    sum_i_j tree3 1 3 = Ok 12.
Proof.
  exists [1; 7; 2; 13; 3; 8], [1; 7; 7; 8; 3; 8], [1; 8; 3; 13; 3; 8].
  split_and!; try reflexivity; [from_fuel 2%nat | from_fuel 3%nat].
Qed.

(** C3 does not hold of the header.  On the buffer of the example array
    [update(1, 2, 1)] returns true, raises [sum(2)] by 2 (from 9 to 11)
    although [1 <= 2 < 3], and lowers [sum(3)] (from 13 to 12) although
    [3 >= j + 1]; [update(3, 3, -1)], the call of the example program,
    moves [sum(4)] from 16 to 15. *)
Theorem update_disturbs_prefix_sums :
  ∃ tree tree2 tree3,
    construct array = Ok tree ∧
    (∀ fuel, (3 ≤ fuel)%nat → update fuel tree 1 2 1 = (Ok true, tree2)) ∧
    sum_i tree 2 = Ok 9 ∧
    sum_i tree2 2 = Ok 11 ∧
    sum_i tree 3 = Ok 13 ∧
    sum_i tree2 3 = Ok 12 ∧
    (∀ fuel, (2 ≤ fuel)%nat → update fuel tree 3 3 (-1) = (Ok true, tree3)) ∧
    sum_i tree 4 = Ok 16 ∧
    sum_i tree3 4 = Ok 15.
Proof.
  exists [1; 7; 2; 13; 3; 8], [1; 8; 3; 12; 3; 8], [1; 7; 2; 12; 3; 8].
  split_and!; try reflexivity; [from_fuel 3%nat | from_fuel 2%nat].
Qed.

(** C4 does not hold of the header.  [update(0, 0, 1)] on the buffer of
    [1, 2, 3] passes both checks and never returns: whatever the fuel, the
    walk from [i = 0] is still running when it is spent.  (With
    [i >= 1] the call does return, lemma [update_from_one].) *)
Theorem update_from_zero_runs_forever :
  ∃ tree,
    construct [1; 2; 3] = Ok tree ∧
    (0 ≤ 0 ≤ 0 ∧ 0 + 1 < size tree) ∧
    ∀ fuel, fst (update fuel tree 0 0 1) = OutOfFuel.
Proof.
  exists [1; 3; 3]. split_and!; try done.
  intros [|[|fuel]]; [reflexivity..|].
  rewrite update_walks by done.
  rewrite (update_walk_mono 2 (S (S fuel))) by (done || lia).
  assert (update_walk 2 [1; 3; 3] (vneg 1) (0 + 1) = (Ok (), [1; 2; 2]))
    as -> by reflexivity.
  cbv beta iota.
  pose proof (update_walk_zero (S (S fuel)) [1; 2; 2] 1 eq_refl) as Hz.
  destruct (update_walk (S (S fuel)) [1; 2; 2] 1 0) as [r tree2].
  simpl in Hz. by rewrite Hz.
Qed.

(** C5 does not hold of the header.  [update(1, 1, 1)] on the buffer of
    [1, 2, 3, 4] passes both checks; its first walk visits slot 2 and then
    slot 4, one past the last slot of the buffer, through the unchecked
    [tree[j]]. *)
Theorem update_walk_leaves_buffer :
  ∃ tree,
    construct [1; 2; 3; 4] = Ok tree ∧
    (1 ≤ 1 ∧ 0 ≤ 1 ∧ 1 + 1 < size tree) ∧
    in_bounds tree 4 = false ∧
    ∀ fuel, (2 ≤ fuel)%nat → fst (update fuel tree 1 1 1) = Undefined.
Proof.
  exists [1; 3; 3; 10]. split_and!; try done.
  intros fuel Hfuel.
  by rewrite (update_mono 2 fuel) by (done || (vm_compute; done)).
Qed.

End update_on_examples.

(** The upper bound [j <= n - 2] of a successful [update] is reached on a
    buffer of size 3: [update(1, 1, 1)] returns true. *)
Lemma update_upper_bound_reached :
  ∀ fuel, (2 ≤ fuel)%nat → update fuel [1; 3; 3] 1 1 1 = (Ok true, [1; 4; 3]).
Proof.
  intros fuel Hfuel.
  by rewrite (update_mono 2 fuel) by (done || (vm_compute; done)).
Qed.

(** * Further properties *)

(** ** sum() and operator[] on a constructed buffer *)

(** X1.  Let the addition of [value_type] be lawful.  For every sequence
    [s], [construct] returns a buffer on which [sum()] returns the sum of
    all elements of [s], taken in [value_type] (0 for the empty
    sequence). *)
Theorem construct_sum_all {T : Type} `{Lawful T} (s : list T) :
  ∃ tree, construct s = Ok tree ∧ sum tree = Ok (total s).
Proof.
  destruct (construct_encodes s) as (tree & Hrun & Henc).
  exists tree. split; [done|]. unfold sum.
  assert (size tree = Z.of_nat (length s)) as Hsz
    by (unfold size; by rewrite (proj1 Henc)).
  destruct (Z.eqb_spec (size tree) 0) as [Hz|Hz].
  - destruct s; [done|]. simpl in Hsz. lia.
  - rewrite (sum_i_encodes tree s) by (done || lia).
    rewrite prefix_total_first. unfold first_total.
    f_equal. f_equal. apply take_ge. lia.
Qed.

Lemma construct_sum_all_witness :
  Lawful (Zmod (2 ^ 32)) ∧
  ∃ tree, construct wrapping = Ok tree ∧ sum tree = Ok (total wrapping).
Proof. exact (conj (modular_lawful (2 ^ 32)) (construct_sum_all wrapping)). Defined.

(** X2.  Let the addition of [value_type] be lawful.  On the buffer
    [construct] builds from [s], [operator[](k)] returns, for
    [0 <= k < n], the sum in [value_type] of the logical elements
    [k & (k + 1) .. k] (not the element [s[k]]), and throws
    [std::out_of_range] for every other [k]. *)
Theorem construct_operator_index {T : Type} `{Lawful T} (s : list T) (k : Z) :
  ∃ tree,
    construct s = Ok tree ∧
    (0 ≤ k < Z.of_nat (length s) →
       operator_index tree k = Ok (range_total s (Z.land k (k + 1)) k)) ∧
    (¬ (0 ≤ k < Z.of_nat (length s)) →
       operator_index tree k = Throw (out_of_range (vector_range_check k))).
Proof.
  destruct (construct_encodes s) as (tree & Hrun & [Hlen Henc]).
  assert (size tree = Z.of_nat (length s)) as Hsz
    by (unfold size; by rewrite Hlen).
  exists tree. split; [done|]. unfold operator_index, at_. split; intros Hk.
  - rewrite in_bounds_true by lia. f_equal. apply Henc. lia.
  - destruct (in_bounds tree k) eqn:Hin; [|done].
    apply in_bounds_spec in Hin. lia.
Qed.

Lemma construct_operator_index_witness :
  Lawful (Zmod (2 ^ 32)) ∧
  ∃ tree,
    construct wrapping = Ok tree ∧
    (0 ≤ 1 < Z.of_nat (length wrapping) →
       operator_index tree 1 = Ok (range_total wrapping (Z.land 1 (1 + 1)) 1)) ∧
    (¬ (0 ≤ 1 < Z.of_nat (length wrapping)) →
       operator_index tree 1 = Throw (out_of_range (vector_range_check 1))).
Proof.
  exact (conj (modular_lawful (2 ^ 32)) (construct_operator_index wrapping 1)).
Defined.

(** ** construct is one-to-one and onto *)

(** X3.  Let the addition and the [==] of [value_type] be lawful.  Two
    constructed buffers compare equal with [operator==] exactly when they
    were built from the same sequence, and [operator!=] is the negation. *)
Theorem operator_eq_construct {T : Type} `{Lawful T} (s1 s2 t1 t2 : list T) :
  construct s1 = Ok t1 →
  construct s2 = Ok t2 →
  (operator_eq t1 t2 = true ↔ s1 = s2) ∧
  operator_ne t1 t2 = negb (operator_eq t1 t2).
Proof.
  intros H1 H2. split; [|done]. unfold operator_eq.
  rewrite vector_eq_spec. split.
  - intros ->. by rewrite <-(construct_decode _ _ H1), <-(construct_decode _ _ H2).
  - intros ->. rewrite H1 in H2. by injection H2.
Qed.

Lemma operator_eq_construct_witness :
  Lawful (Zmod (2 ^ 32)) ∧
  construct unsigned_array = Ok unsigned_buffer ∧
  construct wrapping = Ok (to_unsigned <$> [4294967295; 0]) ∧
  (operator_eq unsigned_buffer (to_unsigned <$> [4294967295; 0]) = true
     ↔ unsigned_array = wrapping) ∧
  operator_ne unsigned_buffer (to_unsigned <$> [4294967295; 0]) =
    negb (operator_eq unsigned_buffer (to_unsigned <$> [4294967295; 0])).
Proof.
  assert (construct unsigned_array = Ok unsigned_buffer) as H1 by reflexivity.
  assert (construct wrapping = Ok (to_unsigned <$> [4294967295; 0])) as H2
    by reflexivity.
  exact (conj (modular_lawful (2 ^ 32))
           (conj H1 (conj H2 (operator_eq_construct _ _ _ _ H1 H2)))).
Defined.

(** X4.  Let the addition of [value_type] be lawful.  Every buffer is the
    result of [construct] on exactly one sequence: the sequence whose
    element [k] is the difference of the sum walks from [k] and from
    [k - 1]. *)
Theorem construct_onto {T : Type} `{Lawful T} (tree : list T) :
  construct (decode tree) = Ok tree ∧
  ∀ s, construct s = Ok tree → s = decode tree.
Proof.
  split.
  - destruct (construct_encodes (decode tree)) as (tree' & Hrun & Henc).
    rewrite Hrun. f_equal.
    eapply encodes_buffer_unique; [done|]. apply encodes_decode.
  - intros s Hrun. symmetry. by apply construct_decode.
Qed.

Lemma construct_onto_witness :
  Lawful (Zmod (2 ^ 32)) ∧
  construct (decode unsigned_buffer) = Ok unsigned_buffer ∧
  ∀ s, construct s = Ok unsigned_buffer → s = decode unsigned_buffer.
Proof. exact (conj (modular_lawful (2 ^ 32)) (construct_onto unsigned_buffer)). Defined.

(** ** clear and the default constructor *)

(** X5.  After [clear()] the buffer is the default-constructed one and the
    one [construct] builds from the empty sequence: its size is 0, it
    compares equal to every other cleared buffer and unequal to every
    non-empty buffer, [sum()] returns 0, [sum(i)] and [operator[](i)] throw
    for every [i], and [update(i, j, value)] with [i <= j] returns false
    and changes nothing. *)
Theorem clear_empties {T : Type} `{Arithmetic T}
    (tree other : list T) (fuel : nat) (i j : Z) (value : T) :
  clear tree = fenwick_tree_default ∧
  construct [] = Ok (clear tree) ∧
  size (clear tree) = 0 ∧
  operator_eq (clear tree) (clear other) = true ∧
  (size other ≠ 0 → operator_eq (clear tree) other = false) ∧
  sum (clear tree) = Ok vzero ∧
  sum_i (clear tree) i = Throw (out_of_range (sum_exceeds_range i)) ∧
  operator_index (clear tree) i = Throw (out_of_range (vector_range_check i)) ∧
  (i ≤ j → update fuel (clear tree) i j value = (Ok false, clear tree)).
Proof.
  split_and!; try done.
  - intros Hne. by destruct other.
  - apply sum_i_throws. unfold clear, size. simpl. lia.
  - unfold operator_index, at_, clear.
    destruct (in_bounds [] i) eqn:Hin; [|done].
    apply in_bounds_spec in Hin. unfold size in Hin. simpl in Hin. lia.
  - intros Hij. apply update_rejected; [done|].
    unfold clear, size. simpl. lia.
Qed.

(** ** sum(i, j): errors and composition *)

(** X6.  With [i <= j] and [i] above the least value of [signed_type],
    [sum(i, j)] checks [j] only: it throws [std::out_of_range] with the
    message of [sum(j)] exactly when [j] lies outside [0, size()), and
    returns a value otherwise, also for a negative [i]; for [i <= 0] it
    returns what [sum(j)] returns. *)
Theorem sum_i_j_checks_upper_bound {T : Type} `{Arithmetic T}
    (tree : list T) (i j : Z) :
  signed_min < i ≤ j →
  (sum_i_j tree i j = Throw (out_of_range (sum_exceeds_range j))
     ↔ ¬ (0 ≤ j < size tree)) ∧
  (0 ≤ j < size tree → ∃ v, sum_i_j tree i j = Ok v) ∧
  (i ≤ 0 → sum_i_j tree i j = sum_i tree j).
Proof.
  intros Hij.
  assert (0 ≤ j < size tree → ∃ v, sum_i_j tree i j = Ok v) as Hret.
  { intros Hj. unfold sum_i_j. rewrite (proj2 (Z.ltb_ge j i)) by lia.
    destruct (sum_i_returns tree j Hj) as [upper ->]. simpl.
    rewrite decrement_above by lia.
    destruct (Z.ltb_spec (i - 1) 0); [by eexists|].
    destruct (sum_i_returns tree (i - 1)) as [lower ->]; [lia|].
    by eexists. }
  split_and!; [|done|].
  - split.
    + intros Hthrow Hj. destruct (Hret Hj) as [v Hv]. by rewrite Hv in Hthrow.
    + intros Hj. unfold sum_i_j. rewrite (proj2 (Z.ltb_ge j i)) by lia.
      by rewrite (sum_i_throws tree j).
  - intros Hi. unfold sum_i_j. rewrite (proj2 (Z.ltb_ge j i)) by lia.
    destruct (sum_i tree j); simpl; try done.
    rewrite decrement_above by lia.
    by rewrite (proj2 (Z.ltb_lt (i - 1) 0)) by lia.
Qed.

Lemma sum_i_j_checks_upper_bound_witness :
  signed_min < -2 ≤ 3 ∧
  (sum_i_j [1; 7; 2; 13; 3; 8] (-2) 3 =
     Throw (out_of_range (sum_exceeds_range 3))
     ↔ ¬ (0 ≤ 3 < size [1; 7; 2; 13; 3; 8])) ∧
  (0 ≤ 3 < size [1; 7; 2; 13; 3; 8] →
     ∃ v, sum_i_j [1; 7; 2; 13; 3; 8] (-2) 3 = Ok v) ∧
  (-2 ≤ 0 →
     sum_i_j [1; 7; 2; 13; 3; 8] (-2) 3 = sum_i [1; 7; 2; 13; 3; 8] 3).
Proof.
  assert (signed_min < -2 ≤ 3) as Hij by (unfold signed_min; lia).
  exact (conj Hij (sum_i_j_checks_upper_bound [1; 7; 2; 13; 3; 8] (-2) 3 Hij)).
Defined.



(** X7.  Let the addition of [value_type] be lawful.  On every buffer, the
    sums of two adjacent ranges add up to the sum of their union:
    [sum(i, j) + sum(j + 1, k) = sum(i, k)] for
    [0 <= i <= j < k < size()]. *)
Theorem sum_i_j_adjacent {T : Type} `{Lawful T} (tree : list T) (i j k : Z) :
  0 ≤ i ≤ j →
  j < k < size tree →
  ∃ a b,
    sum_i_j tree i j = Ok a ∧
    sum_i_j tree (j + 1) k = Ok b ∧
    sum_i_j tree i k = Ok (vadd a b).
Proof.
  intros Hij Hjk.
  rewrite !sum_i_j_value by (unfold signed_min; lia).
  do 2 eexists. split_and!; [done..|].
  f_equal. replace (j + 1 - 1) with j by lia. symmetry. apply vsub_chain.
Qed.

Lemma sum_i_j_adjacent_witness :
  Lawful (Zmod (2 ^ 32)) ∧
  0 ≤ 1 ≤ 2 ∧
  2 < 4 < size unsigned_buffer ∧
  ∃ a b,
    sum_i_j unsigned_buffer 1 2 = Ok a ∧
    sum_i_j unsigned_buffer (2 + 1) 4 = Ok b ∧
    sum_i_j unsigned_buffer 1 4 = Ok (vadd a b).
Proof.
  assert (0 ≤ 1 ≤ 2) as H1 by lia.
  assert (2 < 4 < size unsigned_buffer) as H2
    by (change (size unsigned_buffer) with 6; lia).
  exact (conj (modular_lawful (2 ^ 32))
           (conj H1 (conj H2 (sum_i_j_adjacent unsigned_buffer 1 2 4 H1 H2)))).
Defined.

(** ** update: size, termination, effect *)

(** X8.  [update] never changes the size of the buffer, however the call
    ends. *)
Theorem update_keeps_size {T : Type} `{Arithmetic T}
    (fuel : nat) (tree : list T) (i j : Z) (value : T) :
  size (snd (update fuel tree i j value)) = size tree.
Proof. unfold size. by rewrite update_length. Qed.

(** X9.  A call [update(i, j, value)] with [1 <= i <= j] ends: each of its
    walks takes at most [size()] rounds. *)
Theorem update_ends_from_one {T : Type} `{Arithmetic T}
    (fuel : nat) (tree : list T) (i j : Z) (value : T) :
  1 ≤ i ≤ j →
  size tree ≤ Z.of_nat fuel →
  fst (update fuel tree i j value) ≠ OutOfFuel.
Proof. apply update_from_one. Qed.

Lemma update_ends_from_one_witness :
  1 ≤ 3 ≤ 3 ∧
  size [1; 7; 2; 13; 3; 8] ≤ Z.of_nat 6 ∧
  fst (update 6 [1; 7; 2; 13; 3; 8] 3 3 (-1)) ≠ OutOfFuel.
Proof.
  assert (1 ≤ 3 ≤ 3) as H1 by lia.
  assert (size [1; 7; 2; 13; 3; 8] ≤ Z.of_nat 6) as H2
    by (change (size [1; 7; 2; 13; 3; 8]) with 6; simpl; lia).
  exact (conj H1 (conj H2
    (update_ends_from_one 6 [1; 7; 2; 13; 3; 8] 3 3 (-1) H1 H2))).
Defined.

(** X10.  A call [update(0, j, value)] that passes the checks
    ([0 <= j], [j + 1 < size()]) returns neither true nor false, whatever
    the fuel: its walk from slot 0 does not advance. *)
Theorem update_never_returns_from_zero {T : Type} `{Arithmetic T}
    (fuel : nat) (tree : list T) (j : Z) (value : T) (b : bool) :
  0 ≤ j →
  j + 1 < size tree →
  fst (update fuel tree 0 j value) ≠ Ok b.
Proof. apply update_from_zero. Qed.

Lemma update_never_returns_from_zero_witness :
  0 ≤ 2 ∧
  2 + 1 < size [1; 7; 2; 13; 3; 8] ∧
  fst (update 50 [1; 7; 2; 13; 3; 8] 0 2 1) ≠ Ok true.
Proof.
  assert (0 ≤ 2) as H1 by lia.
  assert (2 + 1 < size [1; 7; 2; 13; 3; 8]) as H2
    by (change (size [1; 7; 2; 13; 3; 8]) with 6; lia).
  exact (conj H1 (conj H2
    (update_never_returns_from_zero 50 [1; 7; 2; 13; 3; 8] 2 1 true H1 H2))).
Defined.

(** X11.  Let the addition of [value_type] be lawful.  When
    [update(i, j, value)] returns true, [sum(k)] returns what it returned
    before for every [0 <= k < i], and [sum(i)] returns what it returned
    before plus [value], added in [value_type]. *)
Theorem update_sums_below {T : Type} `{Lawful T}
    (fuel : nat) (tree tree' : list T) (i j : Z) (value : T) :
  update fuel tree i j value = (Ok true, tree') →
  (∀ k, 0 ≤ k < i → sum_i tree' k = sum_i tree k) ∧
  ∃ v, sum_i tree i = Ok v ∧ sum_i tree' i = Ok (vadd v value).
Proof. intros Hrun. by apply update_sums_up_to_lower_bound in Hrun as [_ ?]. Qed.

Lemma update_sums_below_witness :
  Lawful (Zmod (2 ^ 32)) ∧
  update 6 unsigned_buffer 3 3 (to_unsigned (-1))
    = (Ok true, to_unsigned <$> [1; 7; 2; 12; 3; 8]) ∧
  (∀ k, 0 ≤ k < 3 →
     sum_i (to_unsigned <$> [1; 7; 2; 12; 3; 8]) k = sum_i unsigned_buffer k) ∧
  ∃ v, sum_i unsigned_buffer 3 = Ok v ∧
       sum_i (to_unsigned <$> [1; 7; 2; 12; 3; 8]) 3
         = Ok (vadd v (to_unsigned (-1))).
Proof.
  assert (update 6 unsigned_buffer 3 3 (to_unsigned (-1))
          = (Ok true, to_unsigned <$> [1; 7; 2; 12; 3; 8])) as Hrun
    by reflexivity.
  exact (conj (modular_lawful (2 ^ 32))
           (conj Hrun (update_sums_below 6 _ _ 3 3 _ Hrun))).
Defined.

(** X12.  On a buffer whose size is a power of two, [update] never returns
    true: every call that passes the checks walks into the slot [size()],
    one past the end of the buffer, or does not end. *)
Theorem update_never_true_pow2 {T : Type} `{Arithmetic T}
    (m : Z) (fuel : nat) (tree : list T) (i j : Z) (value : T) :
  0 ≤ m →
  size tree = 2 ^ m →
  fst (update fuel tree i j value) ≠ Ok true.
Proof.
  intros Hm Hsz Htrue.
  destruct (update fuel tree i j value) as [r tree'] eqn:Hrun.
  simpl in Htrue. subst r.
  apply update_true_inv in Hrun as [Hij (tree1 & H1 & _)].
  apply (update_walk_pow2 fuel tree (vneg value) (j + 1) m); [done..|lia|].
  by rewrite H1.
Qed.

Lemma update_never_true_pow2_witness :
  0 ≤ 2 ∧
  size [1; 3; 3; 10] = 2 ^ 2 ∧
  fst (update 8 [1; 3; 3; 10] 1 2 5) ≠ Ok true.
Proof.
  assert (0 ≤ 2) as H1 by lia.
  assert (size [1; 3; 3; 10] = 2 ^ 2) as H2 by reflexivity.
  exact (conj H1 (conj H2
    (update_never_true_pow2 2 8 [1; 3; 3; 10] 1 2 5 H1 H2))).
Defined.

(** X13.  When [update(i, j, value)] returns true, the buffer has its old
    length, and each slot holds what the two walks left in it: [-value]
    has been added to it if it lies on the walk from [j + 1], and then
    [value] if it lies on the walk from [i], each addition done once and
    in [value_type]; a slot on neither walk is as before. *)
Theorem update_slots {T : Type} `{Arithmetic T}
    (fuel : nat) (tree tree' : list T) (i j : Z) (value : T) :
  update fuel tree i j value = (Ok true, tree') →
  length tree' = length tree ∧
  ∀ k, 0 ≤ k < size tree →
    slot tree' k =
      let a := if on_update_walk k (j + 1)
               then vadd (slot tree k) (vneg value) else slot tree k in
      if on_update_walk k i then vadd a value else a.
Proof.
  intros Hrun. split.
  { pose proof (update_length fuel tree i j value) as Hlen.
    by rewrite Hrun in Hlen. }
  apply update_true_inv in Hrun as [Hij (tree1 & H1 & H2)].
  intros k Hk.
  pose proof (update_walk_length fuel tree (vneg value) (j + 1)) as Hlen1.
  rewrite H1 in Hlen1. simpl in Hlen1.
  assert (1 ≤ i) as Hi by lia. assert (1 ≤ j + 1) as Hj by lia.
  rewrite (update_walk_effect _ _ _ _ _ Hi H2) by (unfold size in *; lia).
  by rewrite (update_walk_effect _ _ _ _ _ Hj H1) by done.
Qed.

Lemma update_slots_witness :
  update 6 [1; 7; 2; 13; 3; 8] 3 3 (-1) = (Ok true, [1; 7; 2; 12; 3; 8]) ∧
  length [1; 7; 2; 12; 3; 8] = length [1; 7; 2; 13; 3; 8] ∧
  ∀ k, 0 ≤ k < size [1; 7; 2; 13; 3; 8] →
    slot [1; 7; 2; 12; 3; 8] k =
      let a := if on_update_walk k (3 + 1)
               then vadd (slot [1; 7; 2; 13; 3; 8] k) (vneg (-1))
               else slot [1; 7; 2; 13; 3; 8] k in
      if on_update_walk k 3 then vadd a (-1) else a.
Proof.
  assert (update 6 [1; 7; 2; 13; 3; 8] 3 3 (-1)
          = (Ok true, [1; 7; 2; 12; 3; 8])) as Hrun by reflexivity.
  exact (conj Hrun (update_slots 6 _ _ 3 3 (-1) Hrun)).
Defined.

(** X14.  Let the addition of [value_type] be lawful.  A call of [update]
    that returned true is undone by the same call with the opposite
    value: [update(i, j, -value)] returns true and gives back the buffer
    as it was. *)
Theorem update_undo {T : Type} `{Lawful T}
    (fuel : nat) (tree tree' : list T) (i j : Z) (value : T) :
  update fuel tree i j value = (Ok true, tree') →
  update fuel tree' i j (vneg value) = (Ok true, tree).
Proof.
  intros Hrun.
  pose proof (update_length fuel tree i j value) as Hlen.
  rewrite Hrun in Hlen. simpl in Hlen.
  apply update_true_inv in Hrun as [Hij (tree1 & H1 & H2)].
  pose proof (update_walk_length fuel tree (vneg value) (j + 1)) as Hlen1.
  rewrite H1 in Hlen1. simpl in Hlen1.
  assert (size tree' = size tree) as Hsz by (unfold size; lia).
  assert (size tree1 = size tree) as Hsz1 by (unfold size; lia).
  destruct (update_walk fuel tree' (vneg (vneg value)) (j + 1))
    as [r1 back1] eqn:E1.
  assert (r1 = Ok ()) as ->.
  { pose proof (update_walk_outcome fuel tree' tree (vneg (vneg value))
                  (vneg value) (j + 1) Hlen) as Ho.
    by rewrite E1, H1 in Ho. }
  pose proof (update_walk_length fuel tree' (vneg (vneg value)) (j + 1))
    as Hlenb1.
  rewrite E1 in Hlenb1. simpl in Hlenb1.
  destruct (update_walk fuel back1 (vneg value) i) as [r2 back2] eqn:E2.
  assert (r2 = Ok ()) as ->.
  { pose proof (update_walk_outcome fuel back1 tree1 (vneg value) value i
                  ltac:(lia)) as Ho.
    by rewrite E2, H2 in Ho. }
  pose proof (update_walk_length fuel back1 (vneg value) i) as Hlenb2.
  rewrite E2 in Hlenb2. simpl in Hlenb2.
  apply update_true_inv. split; [lia|].
  exists back1. split; [done|]. rewrite E2. f_equal.
  apply slots_ext; [lia|]. intros k Hk.
  assert (size back2 = size tree) as Hszb by (unfold size; lia).
  assert (1 ≤ i) as Hi by lia. assert (1 ≤ j + 1) as Hj by lia.
  assert (size back1 = size tree) as Hszb1 by (unfold size; lia).
  rewrite (update_walk_effect _ _ _ _ _ Hi E2) by lia.
  rewrite (update_walk_effect _ _ _ _ _ Hj E1) by lia.
  rewrite (update_walk_effect _ _ _ _ _ Hi H2) by lia.
  rewrite (update_walk_effect _ _ _ _ _ Hj H1) by lia.
  destruct (on_update_walk k (j + 1)), (on_update_walk k i);
    by rewrite ?vneg_neg, ?vadd_neg_cancel, ?vadd_cancel_neg.
Qed.

Lemma update_undo_witness :
  Lawful (Zmod (2 ^ 32)) ∧
  update 6 unsigned_buffer 1 2 (to_unsigned 4)
    = (Ok true, to_unsigned <$> [1; 11; 6; 9; 3; 8]) ∧
  update 6 (to_unsigned <$> [1; 11; 6; 9; 3; 8]) 1 2 (vneg (to_unsigned 4))
    = (Ok true, unsigned_buffer).
Proof.
  assert (update 6 unsigned_buffer 1 2 (to_unsigned 4)
          = (Ok true, to_unsigned <$> [1; 11; 6; 9; 3; 8])) as Hrun
    by reflexivity.
  exact (conj (modular_lawful (2 ^ 32))
           (conj Hrun (update_undo 6 _ _ 1 2 _ Hrun))).
Defined.
